(** * buster: a cache-busting script loader

    Shallow embedding of the UMD module [buster.js] (the loader of the
    node-buster repository) and the properties checked against it.

    The loader is JavaScript running on a single cooperative thread of
    a document host.  It is modelled as stateful code over an explicit
    [World] (the closure-private registry [loadedModules], the global
    slot [window.buster], the children appended to [document.head], the
    promise objects handed out, the host clock, and an observation
    trace), with JavaScript exceptions carried by a small
    state-and-exception monad. *)

From stdpp Require Import base strings list gmap pretty.
From Stdlib Require Import ZArith Ascii String Sorted.

Open Scope string_scope.

(** ** JavaScript values *)

(** The values that reach the loader from its callers: primitives,
    String objects ([new String(s)]), other objects (compared by
    identity) and thrown error objects.  Numbers are the
    integer-valued ones; [VObj] and [VError] stand for objects that
    have no [split] method. *)
Inductive JSVal :=
| VUndefined
| VNull
| VBool (b : bool)
| VNum (z : Z)
| VStr (s : string)
| VStringObject (s : string)
| VObj (id : nat)
| VError (name : string) (message : string).

Global Instance JSVal_eq_dec : EqDecision JSVal.
Proof. solve_decision. Defined.

(** [ToBoolean]: what [if (v)] and [!v] test. *)
Definition truthy (v : JSVal) : bool :=
  match v with
  | VUndefined | VNull => false
  | VBool b => b
  | VNum z => negb (Z.eqb z 0)
  | VStr s => negb (String.eqb s "")
  | VStringObject _ | VObj _ | VError _ _ => true
  end.

(** [v === w] on the values above. *)
Definition strict_eq (v w : JSVal) : bool := bool_decide (v = w).

(** ** String primitives used by [schema] *)

(** [s.split(c)] for a one-character separator: the pieces between the
    separators, in order; never empty ([ "".split(c) ] is [ [""] ]). *)
Fixpoint split (c : ascii) (s : string) : list string :=
  match s with
  | EmptyString => [EmptyString]
  | String a s' =>
      if Ascii.eqb a c then EmptyString :: split c s'
      else match split c s' with
           | piece :: rest => String a piece :: rest
           | [] => [String a EmptyString]
           end
  end.

(** [s.includes(c)] for a one-character needle. *)
Fixpoint includes (c : ascii) (s : string) : bool :=
  match s with
  | EmptyString => false
  | String a s' => Ascii.eqb a c || includes c s'
  end.

(** [arr.pop()] on a freshly split array: its last piece. *)
Definition pop (pieces : list string) : string := List.last pieces EmptyString.

(** ** The identity parser *)

Record Schema := { moduleName : string; version : string }.

(** [function schema(url)]: the last ['/']-piece of the locator, cut at
    its dots into [parts]; [parts[0]] is the name and [parts[1]] the
    version.  [parts[1]] exists whenever the piece includes a dot. *)
Definition schema (url : string) : Schema :=
  let moduleName := pop (split "/" url) in
  if includes "." moduleName then
    let parts := split "." moduleName in
    {| moduleName := List.nth 0 parts EmptyString;
       version := List.nth 1 parts EmptyString |}
  else {| moduleName := moduleName; version := EmptyString |}.

(** ** Caller-supplied arguments *)

(** An [onError] callback.  It is caller code: the loader observes only
    that it was called (with which [this] and which argument) and
    whether it returned or threw.  [hook_body this e] is [None] when the
    call returns and [Some x] when it throws [x]; [this] is [Some v]
    for [onError.call(v, e)] and [None] for the plain method call
    [options.onError(e)]. *)
Record Hook := {
  hook_id : nat;
  hook_body : option JSVal -> JSVal -> option JSVal
}.

(** The [options] argument of [load]. *)
Inductive OptionsArg :=
| OptOmitted                                   (* undefined: the default [{}] applies *)
| OptNull                                      (* null: reading a property throws *)
| OptObject (async : JSVal) (onError : option Hook).

(** ** The host *)

(** What the host contributes to the loader: each entry is the
    completion of the corresponding host expression, [inl e] when it
    throws [e].  [window] is [None] on a host where the identifier
    [window] is not defined, and otherwise the completion of
    [.location.origin] on it. *)
Record Host := {
  window : option (JSVal + string);                (* window, and .location.origin on it *)
  new_URL_href : string -> string -> JSVal + string; (* new URL(input, base).href *)
  document_createElement : option JSVal;           (* document.createElement('script') *)
  document_head_appendChild : option JSVal         (* document.head.appendChild(element) *)
}.

Definition ReferenceError (message : string) : JSVal := VError "ReferenceError" message.

(** [window.location.origin]: a ReferenceError where there is no
    [window]. *)
Definition window_location_origin (host : Host) : JSVal + string :=
  match window host with
  | Some completion => completion
  | None => inl (ReferenceError "window is not defined")
  end.
Arguments window_location_origin : simpl never.

(** ** The world *)

Inductive PromiseState :=
| Pending
| Fulfilled
| Rejected (reason : JSVal).

Global Instance PromiseState_eq_dec : EqDecision PromiseState.
Proof. solve_decision. Defined.

(** A script element appended by [load], with what its [onload] and
    [onerror] closures captured.  [async] is [None] while the property
    was never assigned; [fired] is the host's note that it delivered
    the element's load or error event. *)
Record Script := {
  defer : bool;
  type : string;
  async : option bool;
  src : string;
  el_moduleName : string;
  el_options : OptionsArg;
  el_thisArg : JSVal;
  el_promise : nat;
  fired : bool
}.

(** Observable actions, in the order they happen. *)
Inductive Obs :=
| ConsoleWarn (msg : string)
| ConsoleError (msg : string) (e : JSVal)
| DateNow (t : Z)
| CreateElement
| AppendChild (src : string)
| HookCall (id : nat) (this : option JSVal) (e : JSVal)
| Resolve (p : nat) (this : option JSVal)
| Reject (p : nat) (this : option JSVal) (e : JSVal).

Record World := {
  loadedModules : gmap string bool;   (* const loadedModules = {} : own properties *)
  window_buster : JSVal;              (* the property buster of the global object *)
  head : list Script;                 (* children appended to document.head *)
  promises : list PromiseState;       (* promise p is the p-th one created *)
  clock : Z;                          (* the host clock, epoch milliseconds *)
  trace : list Obs
}.

Definition initial (slot : JSVal) (t : Z) : World :=
  {| loadedModules := ∅; window_buster := slot; head := [];
     promises := []; clock := t; trace := [] |}.

Definition set_loadedModules (f : gmap string bool -> gmap string bool) (w : World) : World :=
  {| loadedModules := f (loadedModules w); window_buster := window_buster w;
     head := head w; promises := promises w; clock := clock w; trace := trace w |}.

Definition set_window_buster (v : JSVal) (w : World) : World :=
  {| loadedModules := loadedModules w; window_buster := v;
     head := head w; promises := promises w; clock := clock w; trace := trace w |}.

Definition set_head (f : list Script -> list Script) (w : World) : World :=
  {| loadedModules := loadedModules w; window_buster := window_buster w;
     head := f (head w); promises := promises w; clock := clock w; trace := trace w |}.

Definition set_promises (f : list PromiseState -> list PromiseState) (w : World) : World :=
  {| loadedModules := loadedModules w; window_buster := window_buster w;
     head := head w; promises := f (promises w); clock := clock w; trace := trace w |}.

Definition set_clock (t : Z) (w : World) : World :=
  {| loadedModules := loadedModules w; window_buster := window_buster w;
     head := head w; promises := promises w; clock := t; trace := trace w |}.

Definition observe (o : Obs) (w : World) : World :=
  {| loadedModules := loadedModules w; window_buster := window_buster w;
     head := head w; promises := promises w; clock := clock w;
     trace := trace w ++ [o] |}.

(** ** Statements: state and exceptions *)

Inductive Completion (A : Type) :=
| Normal (a : A)
| Throw (e : JSVal).
Arguments Normal {A} a.
Arguments Throw {A} e.

Definition M (A : Type) : Type := World -> World * Completion A.

Global Instance M_ret : MRet M := λ A a w, (w, Normal a).
Global Instance M_bind : MBind M := λ A B f m w,
  match m w with
  | (w', Normal a) => f a w'
  | (w', Throw e) => (w', Throw e)
  end.

Definition throw {A} (e : JSVal) : M A := λ w, (w, Throw e).
Definition gets {A} (f : World -> A) : M A := λ w, (w, Normal (f w)).
Definition modify (f : World -> World) : M unit := λ w, (f w, Normal tt).
Definition emit (o : Obs) : M unit := modify (observe o).

(** [try { body } catch (error) { handler }] *)
Definition try_catch {A} (body : M A) (handler : JSVal -> M A) : M A := λ w,
  match body w with
  | (w', Normal a) => (w', Normal a)
  | (w', Throw e) => handler e w'
  end.

(** Lift the completion of an expression that reads no loader state:
    [inl e] throws [e], [inr a] evaluates to [a]; for a statement,
    [Some e] throws [e]. *)
Definition lift {A} (r : JSVal + A) : M A :=
  match r with inl e => throw e | inr a => mret a end.
Definition perform (r : option JSVal) : M unit :=
  match r with Some e => throw e | None => mret tt end.

(** ** The load registry *)

(** The properties every object literal inherits from
    [Object.prototype]; each holds a function, and [__proto__] the
    prototype object itself. *)
Definition Object_prototype_keys : list string :=
  ["constructor"; "__defineGetter__"; "__defineSetter__"; "hasOwnProperty";
   "__lookupGetter__"; "__lookupSetter__"; "isPrototypeOf";
   "propertyIsEnumerable"; "toString"; "valueOf"; "__proto__";
   "toLocaleString"].

(** The test [if (loadedModules[moduleName])]: an own property decides
    by its value, otherwise the property is looked up on the prototype. *)
Definition isLoaded (reg : gmap string bool) (moduleName : string) : bool :=
  match reg !! moduleName with
  | Some b => b
  | None => bool_decide (moduleName ∈ Object_prototype_keys)
  end.

(** The assignment [loadedModules[moduleName] = true].  Assigning a
    primitive to [__proto__] goes to the inherited setter, which ignores
    it. *)
Definition markLoaded (moduleName : string) (reg : gmap string bool) : gmap string bool :=
  if String.eqb moduleName "__proto__" then reg
  else <[moduleName := true]> reg.

(** ** The loader *)

(** The object returned by the factory. *)
Definition buster : JSVal := VObj 0.

Definition TypeError (message : string) : JSVal := VError "TypeError" message.

(** [console.warn], [console.error]. *)
Definition console_warn (msg : string) : M unit := emit (ConsoleWarn msg).
Definition console_error (msg : string) (e : JSVal) : M unit := emit (ConsoleError msg e).

(** [Date.now()] *)
Definition Date_now : M Z := λ w, (observe (DateNow (clock w)) w, Normal (clock w)).

(** The promise capabilities: the first settlement wins, later calls do
    nothing. *)
Definition settle (p : nat) (s : PromiseState) (ps : list PromiseState) : list PromiseState :=
  match ps !! p with
  | Some Pending => <[p := s]> ps
  | _ => ps
  end.

(** [if (thisArg) f.call(thisArg, ...) else f(...)]: the [this] the
    callee runs with. *)
Definition binding (thisArg : JSVal) : option JSVal :=
  if truthy thisArg then Some thisArg else None.

Definition resolve (thisArg : JSVal) (p : nat) : M unit :=
  emit (Resolve p (binding thisArg));;
  modify (set_promises (settle p Fulfilled)).

Definition reject (thisArg : JSVal) (p : nat) (error : JSVal) : M unit :=
  emit (Reject p (binding thisArg) error);;
  modify (set_promises (settle p (Rejected error))).

(** [options.async], [options.onError] *)
Definition options_async (options : OptionsArg) : JSVal + JSVal :=
  match options with
  | OptOmitted => inr VUndefined
  | OptNull => inl (TypeError "Cannot read properties of null (reading 'async')")
  | OptObject a _ => inr a
  end.

Definition options_onError (options : OptionsArg) : JSVal + option Hook :=
  match options with
  | OptOmitted => inr None
  | OptNull => inl (TypeError "Cannot read properties of null (reading 'onError')")
  | OptObject _ h => inr h
  end.

Definition call_hook (h : Hook) (thisArg : JSVal) (error : JSVal) : M unit :=
  emit (HookCall (hook_id h) (binding thisArg) error);;
  match hook_body h (binding thisArg) error with
  | Some x => throw x
  | None => mret tt
  end.

(** The statements shared, word for word, by [element.onerror] and by
    the [catch] block of [load]: report, run the hook, reject. *)
Definition fail_with (options : OptionsArg) (thisArg : JSVal) (p : nat) (error : JSVal) : M unit :=
  console_error "Error loading busted module:" error;;
  h ← lift (options_onError options);
  match h with
  | Some hook => call_hook hook thisArg error
  | None => mret tt
  end;;
  reject thisArg p error.

(** [element.onload] *)
Definition onload (el : Script) : M unit :=
  modify (set_loadedModules (markLoaded (el_moduleName el)));;
  resolve (el_thisArg el) (el_promise el).

(** [element.onerror] *)
Definition onerror (el : Script) (error : JSVal) : M unit :=
  fail_with (el_options el) (el_thisArg el) (el_promise el) error.

(** The text of a locator that has the [split] method of strings: a
    string, or a String object, which [split] and the template literal
    both convert to its string. *)
Definition locator_text (module : JSVal) : option string :=
  match module with
  | VStr s | VStringObject s => Some s
  | _ => None
  end.

(** The TypeError of [url.split('/')] on a value without that method. *)
Definition split_TypeError (module : JSVal) : JSVal :=
  match module with
  | VUndefined => TypeError "Cannot read properties of undefined (reading 'split')"
  | VNull => TypeError "Cannot read properties of null (reading 'split')"
  | _ => TypeError "url.split is not a function"
  end.

(** [schema(module)] on the argument as passed. *)
Definition schema_of (module : JSVal) : M (string * Schema) :=
  match locator_text module with
  | Some url => mret (url, schema url)
  | None => throw (split_TypeError module)
  end.

(** The element as [load] configures it between [createElement] and
    [appendChild]: deferred, typed, [async] assigned unless
    [options.async === false], the two handlers closed over the call's
    module name, options, binding context and promise, and [src]. *)
Definition new_script (a : JSVal) (href moduleName : string)
    (options : OptionsArg) (thisArg : JSVal) (p : nat) : Script :=
  {| defer := true;
     type := "application/javascript";
     async := if strict_eq a (VBool false) then None else Some true;
     src := href;
     el_moduleName := moduleName;
     el_options := options;
     el_thisArg := thisArg;
     el_promise := p;
     fired := false |}.

(** The template literal [`${module}?cacheBuster=${cacheBuster}`]. *)
Definition busted (module : string) (cacheBuster : Z) : string :=
  module ++ "?cacheBuster=" ++ pretty cacheBuster.

(** The world once the promise being constructed exists. *)
Definition allocate_promise (w : World) : World :=
  set_promises (λ ps, (ps ++ [Pending])%list) w.

Section Loader.
Variable host : Host.

(** The [try] block of [load], run by the executor of promise [p]. *)
Definition load_try (module : JSVal) (options : OptionsArg) (thisArg : JSVal) (p : nat) : M unit :=
  '(url, sch) ← schema_of module;
  loaded ← gets (λ w, isLoaded (loadedModules w) (moduleName sch));
  if (loaded : bool) then
    console_warn ("Module " ++ moduleName sch ++ " is already loaded.");;
    resolve thisArg p
  else
    cacheBuster ← Date_now;
    let module' := busted url cacheBuster in
    origin ← lift (window_location_origin host);
    href ← lift (new_URL_href host module' origin);
    perform (document_createElement host);;
    emit CreateElement;;
    a ← lift (options_async options);
    let element := new_script a href (moduleName sch) options thisArg p in
    perform (document_head_appendChild host);;
    emit (AppendChild href);;
    modify (set_head (λ h, (h ++ [element])%list)).

(** [new Promise(executor)]: a fresh pending promise; an exception
    that escapes the executor rejects it. *)
Definition new_Promise (executor : nat -> M unit) : M nat := λ w,
  let p := List.length (promises w) in
  match executor p (allocate_promise w) with
  | (w', Normal _) => (w', Normal p)
  | (w', Throw e) => (set_promises (settle p (Rejected e)) w', Normal p)
  end.

(** [buster.load(module, options = {}, thisArg)] *)
Definition load (module : JSVal) (options : OptionsArg) (thisArg : JSVal) : M nat :=
  new_Promise (λ p,
    try_catch (load_try module options thisArg p)
              (fail_with options thisArg p)).

(** [buster.bust(module, options, thisArg)] *)
Definition bust (module : JSVal) (options : OptionsArg) (thisArg : JSVal) : M nat :=
  load module options thisArg.

(** [buster.$noConflict()]: it reads and writes [window.buster], and
    throws a ReferenceError where [window] is not defined. *)
Definition noConflict : M JSVal :=
  match window host with
  | None => throw (ReferenceError "window is not defined")
  | Some _ =>
      slot ← gets window_buster;
      (if strict_eq slot buster
       then modify (set_window_buster VUndefined)
       else mret tt);;
      mret buster
  end.

End Loader.

(** ** The UMD wrapper *)

(** What the wrapper finds at initialisation:
    [typeof module === 'object' && typeof module.exports === 'object'],
    and [typeof define === 'function' && define.amd]. *)
Record Env := { module_exports : bool; define_amd : bool }.

Inductive Export :=
| ViaModuleExports        (* module.exports = factory() *)
| ViaDefine               (* define([], factory) *)
| Attached                (* global.buster = factory() *)
| NotAttached.

(** What the identifier [module] is bound to: nothing whose [typeof]
    is ['object'], [null], or an object (with the result of
    [typeof module.exports === 'object']). *)
Inductive ModuleBinding :=
| ModuleAbsent
| ModuleNull
| ModuleObject (exports_is_object : bool).

(** The first argument of the wrapper,
    [typeof window !== 'undefined' ? window : this]: the global object
    (as [window], or as [this] at the top level of a script), or
    [undefined] (no [window], and [this] undefined as in a module). *)
Inductive GlobalArg :=
| GlobalObject
| NoGlobal.

Definition global_argument (host : Host) (this_is_global : bool) : GlobalArg :=
  match window host with
  | Some _ => GlobalObject
  | None => if this_is_global then GlobalObject else NoGlobal
  end.

(** [function (global, factory)], with [factory()] returning [buster]
    and [global.buster] the slot [window_buster] when [global] is the
    global object.  [typeof null] is ['object'], so a [null] module
    throws on [module.exports]; an undefined [global] throws on
    [global.buster].  The [__esModule] marker it defines on the
    attached loader is not part of the world. *)
Definition wrapper (module : ModuleBinding) (define_amd : bool)
    (global : GlobalArg) : M Export :=
  match module with
  | ModuleNull => throw (TypeError "Cannot read properties of null (reading 'exports')")
  | ModuleObject true => mret ViaModuleExports
  | _ =>
      if define_amd then mret ViaDefine
      else
        match global with
        | NoGlobal =>
            throw (TypeError "Cannot read properties of undefined (reading 'buster')")
        | GlobalObject =>
            g ← gets window_buster;
            (if truthy g
             then console_warn "buster is already defined in the global scope"
             else mret tt);;
            g' ← gets window_buster;
            if negb (truthy g')
            then modify (set_window_buster buster);; mret Attached
            else mret NotAttached
        end
  end.

(** The wrapper in an environment that has a global object and where
    [module], if bound, is an object. *)
Definition umd (env : Env) : M Export :=
  wrapper (if module_exports env then ModuleObject true else ModuleAbsent)
    (define_amd env) GlobalObject.

(** ** The event loop *)

(** One turn of the host's single thread: a call into the loader by
    page code, page code assigning the global slot, the load or error
    event of the [i]-th appended element, or time passing (the clock
    moves forward only). *)
Inductive Event :=
| CallLoad (module : JSVal) (options : OptionsArg) (thisArg : JSVal)
| CallBust (module : JSVal) (options : OptionsArg) (thisArg : JSVal)
| CallNoConflict
| AssignGlobal (v : JSVal)
| LoadEvent (i : nat)
| ErrorEvent (i : nat) (error : JSVal)
| Tick (dt : N).

Definition mark_fired (el : Script) : Script :=
  {| defer := defer el; type := type el; async := async el; src := src el;
     el_moduleName := el_moduleName el; el_options := el_options el;
     el_thisArg := el_thisArg el; el_promise := el_promise el; fired := true |}.

(** The host delivers one event per element, to the handler installed
    on it. *)
Definition deliver (i : nat) (handler : Script -> M unit) : M unit := λ w,
  match head w !! i with
  | Some el =>
      if fired el then (w, Normal tt)
      else handler el (set_head (λ h, <[i := mark_fired el]> h) w)
  | None => (w, Normal tt)
  end.

Section EventLoop.
Variable host : Host.

(** An exception that escapes a turn is reported by the host and the
    loop goes on with the state the turn left. *)
Definition step (w : World) (ev : Event) : World :=
  match ev with
  | CallLoad module options thisArg => fst (load host module options thisArg w)
  | CallBust module options thisArg => fst (bust host module options thisArg w)
  | CallNoConflict => fst (noConflict host w)
  | AssignGlobal v => set_window_buster v w
  | LoadEvent i => fst (deliver i onload w)
  | ErrorEvent i error => fst (deliver i (λ el, onerror el error) w)
  | Tick dt => set_clock (clock w + Z.of_N dt) w
  end.

Definition run (w : World) (evs : list Event) : World := fold_left step evs w.

End EventLoop.

(** ** A concrete host, for examples *)

Definition page : Host :=
  {| window := Some (inr "https://example.test");
     new_URL_href := λ input base, inr (base ++ input);
     document_createElement := None;
     document_head_appendChild := None |}.

(** A host without a window or a document: a bare JavaScript runtime. *)
Definition headless : Host :=
  {| window := None;
     new_URL_href := λ input base, inr (base ++ input);
     document_createElement := Some (VError "ReferenceError" "document is not defined");
     document_head_appendChild := Some (VError "ReferenceError" "document is not defined") |}.

Definition epoch0 : World := initial VUndefined 1700000000000.

(** An environment with neither [module.exports] nor [define.amd]. *)
Definition console_only : Env := {| module_exports := false; define_amd := false |}.

(** Two hooks: one returns, one throws. *)
Definition logging_hook : Hook :=
  {| hook_id := 1; hook_body := λ _ _, None |}.
Definition throwing_hook : Hook :=
  {| hook_id := 2; hook_body := λ _ _, Some (VError "Error" "handler failed") |}.

(** ** Scenarios *)

Definition bustMe : JSVal := VStr "/modules/bustMe.js".
Definition missing : JSVal := VStr "/x/missing.v2.js".
Definition failure_event : JSVal := VError "Event" "error".

(** [load("/modules/bustMe.js")], then the element's load event. *)
Definition after_first_load : World :=
  run page epoch0 [CallLoad bustMe OptOmitted VUndefined; LoadEvent 0].

(** Two calls for the same resource within one millisecond. *)
Definition two_calls_same_ms : World :=
  run page epoch0 [CallLoad bustMe OptOmitted VUndefined;
                   CallLoad bustMe OptOmitted VUndefined].

(** A load whose hook throws, and the element's error event. *)
Definition failed_with_throwing_hook : World :=
  run page epoch0
    [CallLoad missing (OptObject VUndefined (Some throwing_hook)) VUndefined;
     ErrorEvent 0 failure_event].

(** A load given the binding context 0, and the element's error event. *)
Definition failed_with_falsy_context : World :=
  run page epoch0
    [CallLoad missing (OptObject VUndefined (Some logging_hook)) (VNum 0);
     ErrorEvent 0 failure_event].

(** A load whose hook returns, pending. *)
Definition pending_load : World :=
  run page epoch0
    [CallLoad missing (OptObject VUndefined (Some logging_hook)) (VObj 5)].

(** ** Notions used in the statements *)

(** [seg] is the final ['/']-delimited segment of [url]. *)
Definition final_segment (url seg : string) : Prop :=
  includes "/" seg = false ∧ (url = seg ∨ ∃ pre, url = pre ++ "/" ++ seg).

(** The clock readings a trace records, oldest first. *)
Definition tokens (tr : list Obs) : list Z :=
  omap (λ o, match o with DateNow t => Some t | _ => None end) tr.

(** The clock reading a call makes: one, unless the locator has no
    text or its name is already loaded. *)
Definition token_of (module : JSVal) (w : World) : list Z :=
  match locator_text module with
  | Some url =>
      if isLoaded (loadedModules w) (moduleName (schema url)) then [] else [clock w]
  | None => []
  end.

(** The clock reading a turn of the event loop makes. *)
Definition token_of_event (ev : Event) (w : World) : list Z :=
  match ev with
  | CallLoad module _ _ | CallBust module _ _ => token_of module w
  | _ => []
  end.

(** Every appended element holds a promise that exists, no two
    elements share one, and the promise of an element whose event is
    still to come is pending. *)
Definition well_formed (w : World) : Prop :=
  Forall (λ p, p < List.length (promises w)) (el_promise <$> head w) ∧
  NoDup (el_promise <$> head w) ∧
  (∀ i el, head w !! i = Some el → fired el = false →
     promises w !! el_promise el = Some Pending).

(** The host expressions of one injection all complete: the origin is
    [origin], the busted locator resolves to [href], and the element
    can be created and appended. *)
Definition cooperates (host : Host) (url : string) (w : World)
    (origin href : string) : Prop :=
  window_location_origin host = inr origin ∧
  new_URL_href host (busted url (clock w)) origin = inr href ∧
  document_createElement host = None ∧
  document_head_appendChild host = None.

(** What the registry can hold: only [true], only under names that no
    object inherits, and only names of elements whose event was
    delivered; and no appended element carries an inherited name. *)
Definition registry_sound (w : World) : Prop :=
  (∀ k b, loadedModules w !! k = Some b →
     b = true ∧ (k ∉ Object_prototype_keys) ∧
     ∃ i el, head w !! i = Some el ∧ el_moduleName el = k ∧ fired el = true) ∧
  (∀ i el, head w !! i = Some el → el_moduleName el ∉ Object_prototype_keys).

(** The attributes [load] gives an element. *)
Definition configured (el : Script) : Prop :=
  defer el = true ∧ type el = "application/javascript" ∧
  ∃ a, options_async (el_options el) = inr a ∧
    async el = if strict_eq a (VBool false) then None else Some true.

(** The calls of [load] and [bust] among the turns of a run. *)
Definition is_call (ev : Event) : bool :=
  match ev with
  | CallLoad _ _ _ | CallBust _ _ _ => true
  | _ => false
  end.

Definition calls (evs : list Event) : nat := List.length (List.filter is_call evs).

(** ** The demo script *)

(** [const hello = (name) => `Hello, ${name}!`] of [spec/bustMe.js], on
    a string. *)
Definition hello (name : string) : string := "Hello, " ++ name ++ "!".

(** * Properties *)

Example schema_bustMe :
  schema "/modules/bustMe.js" = {| moduleName := "bustMe"; version := "js" |}.
Proof. reflexivity. Qed.

Example schema_missing :
  schema "/x/missing.v2.js" = {| moduleName := "missing"; version := "v2" |}.
Proof. reflexivity. Qed.


(** ** Splitting *)

Lemma split_nonempty c s : split c s ≠ [].
Proof.
  destruct s as [|a s]; simpl; [done|].
  destruct (Ascii.eqb a c); [done|].
  by destruct (split c s).
Qed.

Lemma split_no_separator c s : includes c s = false → split c s = [s].
Proof.
  induction s as [|a s IH]; simpl; [done|].
  intros [Ha Hs]%orb_false_iff. rewrite Ha, (IH Hs). done.
Qed.

Lemma split_at_separator c s1 s2 :
  split c (s1 ++ String c s2) = (split c s1 ++ split c s2)%list.
Proof.
  induction s1 as [|a s1 IH]; simpl.
  - by rewrite Ascii.eqb_refl.
  - rewrite IH. destruct (Ascii.eqb a c); [done|].
    pose proof (split_nonempty c s1) as Hne.
    by destruct (split c s1).
Qed.

Lemma includes_separator c s1 s2 : includes c (s1 ++ String c s2) = true.
Proof.
  induction s1 as [|a s1 IH]; simpl.
  - by rewrite Ascii.eqb_refl.
  - rewrite IH. apply orb_true_r.
Qed.

Lemma split_first_piece c a rest :
  includes c a = false → split c (a ++ String c rest) = a :: split c rest.
Proof. intros Ha. by rewrite split_at_separator, (split_no_separator _ _ Ha). Qed.

Lemma first_piece_no_separator c s :
  includes c (List.nth 0 (split c s) EmptyString) = false.
Proof.
  induction s as [|a s IH]; simpl; [done|].
  destruct (Ascii.eqb a c) eqn:Ha; [done|].
  pose proof (split_nonempty c s) as Hne.
  destruct (split c s) as [|piece pieces]; [done|].
  simpl in *. by rewrite Ha, IH.
Qed.

Lemma pop_app l1 l2 : l2 ≠ [] → pop (l1 ++ l2) = pop l2.
Proof.
  intros Hne. unfold pop. induction l1 as [|x l1 IH]; simpl; [done|].
  rewrite IH. destruct (l1 ++ l2)%list eqn:E; [|done].
  by apply app_eq_nil in E as [_ ->].
Qed.

Lemma pop_final_segment url seg :
  final_segment url seg → pop (split "/" url) = seg.
Proof.
  intros [Hseg [->|[pre ->]]].
  - by rewrite (split_no_separator _ _ Hseg).
  - change ("/" ++ seg) with (String "/" seg).
    rewrite split_at_separator, pop_app by apply split_nonempty.
    by rewrite (split_no_separator _ _ Hseg).
Qed.

(** C5. For a locator whose final ['/']-delimited segment [seg] has a
    dot, [seg = a.rest] with no dot in [a], [schema] returns [a] as
    module name and, as version, the text between the first dot and the
    second one when there is a second ([rest = b.r], no dot in [b] :
    version [b]), all of [rest] when there is none.  For a final segment
    without a dot the module name is the whole segment and the version
    is empty. *)
Theorem schema_final_segment url seg :
  final_segment url seg →
  (includes "." seg = false →
     schema url = {| moduleName := seg; version := "" |}) ∧
  (∀ a rest, seg = a ++ "." ++ rest → includes "." a = false →
     moduleName (schema url) = a ∧
     (includes "." rest = false → version (schema url) = rest) ∧
     (∀ b r, rest = b ++ "." ++ r → includes "." b = false →
        version (schema url) = b)).
Proof.
  intros Hseg. unfold schema. rewrite (pop_final_segment _ _ Hseg). split.
  - by intros ->.
  - intros a rest -> Ha. change ("." ++ rest) with (String "." rest).
    rewrite includes_separator, (split_first_piece _ _ _ Ha).
    cbn [List.nth moduleName version]. split; [done|]. split.
    + intros Hrest. by rewrite (split_no_separator _ _ Hrest).
    + intros b r -> Hb. change ("." ++ r) with (String "." r).
      by rewrite (split_first_piece _ _ _ Hb).
Qed.

Lemma schema_final_segment_witness :
  moduleName (schema "/x/missing.v2.js") = "missing" ∧
  version (schema "/x/missing.v2.js") = "v2" ∧
  schema "/modules/bustMe" = {| moduleName := "bustMe"; version := "" |}.
Proof.
  assert (H1 : final_segment "/x/missing.v2.js" "missing.v2.js").
  { split; [reflexivity|]. right. by exists "/x". }
  assert (H2 : final_segment "/modules/bustMe" "bustMe").
  { split; [reflexivity|]. right. by exists "/modules". }
  destruct (schema_final_segment _ _ H1) as [_ Hdot].
  destruct (Hdot "missing" "v2.js" eq_refl eq_refl) as (Hn & _ & Hv).
  split; [exact Hn|]. split; [exact (Hv "v2" "js" eq_refl eq_refl)|].
  destruct (schema_final_segment _ _ H2) as [Hnodot _].
  exact (Hnodot eq_refl).
Defined.

(** C6, as stated, fails: for the segment [missing.v2.js] the part
    after the first dot is [v2.js], and [schema] returns [v2]. *)
Lemma schema_version_not_whole_rest :
  final_segment "/x/missing.v2.js" "missing.v2.js" ∧
  "missing.v2.js" = "missing" ++ "." ++ "v2.js" ∧
  includes "." "missing" = false ∧
  version (schema "/x/missing.v2.js") ≠ "v2.js".
Proof.
  split; [|split; [reflexivity|split; [reflexivity|]]].
  - split; [reflexivity|]. right. by exists "/x".
  - vm_compute. discriminate.
Qed.

(** C6, amended. For a final segment [a.rest] with no dot in [a], the
    version is the text of [rest] before its first dot: it has no dot
    itself, and it is the entire part after the first dot exactly when
    that part has no further dot. *)
Theorem schema_version_up_to_second_dot url seg a rest :
  final_segment url seg → seg = a ++ "." ++ rest → includes "." a = false →
  version (schema url) = List.nth 0 (split "." rest) "" ∧
  includes "." (version (schema url)) = false ∧
  (version (schema url) = rest ↔ includes "." rest = false).
Proof.
  intros Hseg -> Ha. unfold schema. rewrite (pop_final_segment _ _ Hseg).
  change ("." ++ rest) with (String "." rest).
  rewrite includes_separator, (split_first_piece _ _ _ Ha).
  cbn [version]. change (List.nth 1 (a :: split "." rest) "")
    with (List.nth 0 (split "." rest) "").
  split; [done|]. split; [apply first_piece_no_separator|]. split.
  - intros Heq. rewrite <- Heq at 1. apply first_piece_no_separator.
  - intros Hrest. by rewrite (split_no_separator _ _ Hrest).
Qed.

Lemma schema_version_up_to_second_dot_witness :
  version (schema "/x/missing.v2.js") = "v2" ∧
  includes "." (version (schema "/x/missing.v2.js")) = false.
Proof.
  assert (H1 : final_segment "/x/missing.v2.js" "missing.v2.js").
  { split; [reflexivity|]. right. by exists "/x". }
  destruct (schema_version_up_to_second_dot _ _ "missing" "v2.js" H1 eq_refl eq_refl)
    as (Hv & Hnd & _).
  split; [exact Hv | exact Hnd].
Defined.

(** ** The global slot *)



(** C10, as stated, fails: a slot occupied by the number 0 is occupied
    by a value, yet the wrapper emits no warning and overwrites it with
    the loader. *)
Lemma umd_overwrites_falsy_occupant :
  window_buster (initial (VNum 0) 0) = VNum 0 ∧
  umd console_only (initial (VNum 0) 0) = (initial buster 0, Normal Attached) ∧
  trace (fst (umd console_only (initial (VNum 0) 0))) = [] ∧
  window_buster (fst (umd console_only (initial (VNum 0) 0))) ≠ VNum 0.
Proof. repeat split. vm_compute. discriminate. Qed.

(** C10, amended. With neither [module.exports] nor [define.amd]
    present, the wrapper tests the slot for truthiness.  A truthy
    occupant gets one warning and stays in place, nothing else changes;
    an absent or falsy occupant (undefined, null, false, 0, the empty
    string) is replaced by the loader without a warning. *)
Theorem umd_global_attach (env : Env) (w : World) :
  module_exports env = false → define_amd env = false →
  (truthy (window_buster w) = true →
     umd env w
     = (observe (ConsoleWarn "buster is already defined in the global scope") w,
        Normal NotAttached)) ∧
  (truthy (window_buster w) = false →
     umd env w = (set_window_buster buster w, Normal Attached)).
Proof.
  intros Hm Hd. unfold umd, wrapper. rewrite Hm, Hd.
  unfold mbind, M_bind, gets, console_warn, emit, modify. cbn. split.
  - intros Ht. rewrite Ht. cbn. by rewrite Ht.
  - intros Ht. rewrite Ht. cbn. by rewrite Ht.
Qed.

Lemma umd_global_attach_witness :
  umd console_only (initial (VObj 7) 0)
  = (observe (ConsoleWarn "buster is already defined in the global scope")
       (initial (VObj 7) 0), Normal NotAttached) ∧
  umd console_only (initial VUndefined 0) = (initial buster 0, Normal Attached).
Proof.
  destruct (umd_global_attach console_only (initial (VObj 7) 0) eq_refl eq_refl)
    as [Hkeep _].
  destruct (umd_global_attach console_only (initial VUndefined 0) eq_refl eq_refl)
    as [_ Hattach].
  split; [exact (Hkeep eq_refl) | exact (Hattach eq_refl)].
Defined.

(** ** Promise settlement *)

Lemma settle_length p s ps : List.length (settle p s ps) = List.length ps.
Proof.
  unfold settle. destruct (ps !! p) as [[]|]; try done. apply length_insert.
Qed.

Lemma settle_fresh s ps :
  settle (List.length ps) s (ps ++ [Pending])%list = (ps ++ [s])%list.
Proof.
  unfold settle. rewrite lookup_app_r, Nat.sub_diag by done. cbn.
  replace (List.length ps) with (List.length ps + 0) at 1 by lia.
  by rewrite insert_app_r.
Qed.

Lemma settle_pending p s ps :
  ps !! p = Some Pending → settle p s ps !! p = Some s.
Proof.
  intros Hp. unfold settle. rewrite Hp.
  apply list_lookup_insert_eq. by eapply lookup_lt_Some.
Qed.

Lemma settle_other p q s ps : p ≠ q → settle p s ps !! q = ps !! q.
Proof.
  intros Hne. unfold settle. destruct (ps !! p) as [[]|]; try done.
  by apply list_lookup_insert_ne.
Qed.

(** ** What one statement sequence does to the world *)

Ltac exec :=
  unfold fail_with, onerror, onload, resolve, reject, call_hook,
    options_onError, options_async, console_error, console_warn, emit,
    Date_now, modify, gets, throw, lift, perform,
    mbind, M_bind, mret, M_ret in *;
  cbn in *.

(** The outcome of the shared failure statements, by what the caller
    passed as [options]. *)
Lemma fail_with_no_hook options thisArg p e w :
  options = OptOmitted ∨ (∃ a, options = OptObject a None) →
  ∃ w', fail_with options thisArg p e w = (w', Normal tt) ∧
    trace w' = (trace w ++ [ConsoleError "Error loading busted module:" e;
                            Reject p (binding thisArg) e])%list ∧
    promises w' = settle p (Rejected e) (promises w) ∧
    loadedModules w' = loadedModules w ∧ head w' = head w ∧
    window_buster w' = window_buster w ∧ clock w' = clock w.
Proof.
  intros [->|[a ->]]; exec; eexists; (split; [reflexivity|]); cbn;
    by rewrite <- app_assoc.
Qed.

Lemma fail_with_hook_returns a h thisArg p e w :
  hook_body h (binding thisArg) e = None →
  ∃ w', fail_with (OptObject a (Some h)) thisArg p e w = (w', Normal tt) ∧
    trace w' = (trace w ++ [ConsoleError "Error loading busted module:" e;
                            HookCall (hook_id h) (binding thisArg) e;
                            Reject p (binding thisArg) e])%list ∧
    promises w' = settle p (Rejected e) (promises w) ∧
    loadedModules w' = loadedModules w ∧ head w' = head w ∧
    window_buster w' = window_buster w ∧ clock w' = clock w.
Proof.
  intros Hret. exec. rewrite Hret. cbn. eexists. split; [reflexivity|]. cbn.
  by rewrite <- !app_assoc.
Qed.

Lemma fail_with_hook_throws a h thisArg p e x w :
  hook_body h (binding thisArg) e = Some x →
  ∃ w', fail_with (OptObject a (Some h)) thisArg p e w = (w', Throw x) ∧
    trace w' = (trace w ++ [ConsoleError "Error loading busted module:" e;
                            HookCall (hook_id h) (binding thisArg) e])%list ∧
    promises w' = promises w ∧
    loadedModules w' = loadedModules w ∧ head w' = head w ∧
    window_buster w' = window_buster w ∧ clock w' = clock w.
Proof.
  intros Hthrow. exec. rewrite Hthrow. cbn. eexists. split; [reflexivity|]. cbn.
  by rewrite <- !app_assoc.
Qed.

Lemma fail_with_null thisArg p e w :
  ∃ w' x, fail_with OptNull thisArg p e w = (w', Throw x) ∧
    trace w' = (trace w ++ [ConsoleError "Error loading busted module:" e])%list ∧
    promises w' = promises w ∧
    loadedModules w' = loadedModules w ∧ head w' = head w ∧
    window_buster w' = window_buster w ∧ clock w' = clock w.
Proof. exec. eexists _, _. by split. Qed.

(** In every case the failure statements leave the registry, the
    document, the slot and the clock alone; they reject [p] when they
    complete and settle nothing when they throw. *)
Lemma fail_with_outcome options thisArg p e w :
  ∃ w' c, fail_with options thisArg p e w = (w', c) ∧
    loadedModules w' = loadedModules w ∧ head w' = head w ∧
    window_buster w' = window_buster w ∧ clock w' = clock w ∧
    match c with
    | Normal _ => promises w' = settle p (Rejected e) (promises w)
    | Throw _ => promises w' = promises w
    end.
Proof.
  destruct options as [| |a [h|]].
  - destruct (fail_with_no_hook OptOmitted thisArg p e w) as (w' & -> & ?);
      [by left|]. eexists _, _. split; [done|]. intuition auto.
  - destruct (fail_with_null thisArg p e w) as (w' & x & -> & ?).
    eexists _, _. split; [done|]. intuition auto.
  - destruct (hook_body h (binding thisArg) e) as [x|] eqn:Hb.
    + destruct (fail_with_hook_throws a h thisArg p e x w Hb) as (w' & -> & ?).
      eexists _, _. split; [done|]. intuition auto.
    + destruct (fail_with_hook_returns a h thisArg p e w Hb) as (w' & -> & ?).
      eexists _, _. split; [done|]. intuition auto.
  - destruct (fail_with_no_hook (OptObject a None) thisArg p e w) as (w' & -> & ?);
      [right; by eexists|]. eexists _, _. split; [done|]. intuition auto.
Qed.

(** ** The [try] block of [load] *)

Section LoadTry.
Variable host : Host.

(** The deduplicated path. *)
Lemma load_try_deduplicated url options thisArg p w :
  isLoaded (loadedModules w) (moduleName (schema url)) = true →
  ∃ w', load_try host (VStr url) options thisArg p w = (w', Normal tt) ∧
    trace w' = (trace w ++
      [ConsoleWarn ("Module " ++ moduleName (schema url) ++ " is already loaded.");
       Resolve p (binding thisArg)])%list ∧
    promises w' = settle p Fulfilled (promises w) ∧
    head w' = head w ∧ loadedModules w' = loadedModules w ∧
    window_buster w' = window_buster w ∧ clock w' = clock w.
Proof.
  intros Hloaded. unfold load_try. exec. rewrite Hloaded. cbn.
  eexists. split; [reflexivity|]. cbn. by rewrite <- app_assoc.
Qed.

(** The injecting path: every host expression completes normally. *)
Lemma load_try_injects url options thisArg p w origin href a :
  isLoaded (loadedModules w) (moduleName (schema url)) = false →
  window_location_origin host = inr origin →
  new_URL_href host (busted url (clock w)) origin = inr href →
  document_createElement host = None →
  options_async options = inr a →
  document_head_appendChild host = None →
  ∃ w', load_try host (VStr url) options thisArg p w = (w', Normal tt) ∧
    trace w' = (trace w ++
      [DateNow (clock w); CreateElement; AppendChild href])%list ∧
    head w' = (head w ++
      [new_script a href (moduleName (schema url)) options thisArg p])%list ∧
    promises w' = promises w ∧ loadedModules w' = loadedModules w ∧
    window_buster w' = window_buster w ∧ clock w' = clock w.
Proof.
  intros Hfresh Ho Hu Hc Ha Happ. unfold load_try. exec.
  rewrite Hfresh, Ho. cbn. rewrite Hu, Hc. cbn.
  destruct options as [| |a' h]; cbn in *; [| discriminate |];
    inversion Ha; subst; rewrite Happ; cbn;
    (eexists; split; [reflexivity|]; cbn; by rewrite <- !app_assoc).
Qed.

(** Whatever path is taken, the [try] block writes neither the
    registry nor the slot nor the clock, and only extends the trace. *)
Lemma load_try_frame module options thisArg p w :
  let w' := fst (load_try host module options thisArg p w) in
  loadedModules w' = loadedModules w ∧ window_buster w' = window_buster w ∧
  clock w' = clock w.
Proof.
  unfold load_try, schema_of. destruct (locator_text module) as [url|]; exec; [|done].
  destruct (isLoaded _ _); cbn; [done|].
  destruct (window_location_origin host); cbn; [done|].
  destruct (new_URL_href host _ _); cbn; [done|].
  destruct (document_createElement host); cbn; [done|].
  destruct options; cbn; try done;
    destruct (document_head_appendChild host); cbn; done.
Qed.

(** A [try] block that throws has settled no promise and appended no
    element. *)
Lemma load_try_throws module options thisArg p w w' e :
  load_try host module options thisArg p w = (w', Throw e) →
  promises w' = promises w ∧ head w' = head w.
Proof.
  unfold load_try, schema_of. destruct (locator_text module) as [url|]; exec;
    [|by inversion 1].
  destruct (isLoaded _ _); cbn; [by inversion 1|].
  destruct (window_location_origin host); cbn; [by inversion 1|].
  destruct (new_URL_href host _ _); cbn; [by inversion 1|].
  destruct (document_createElement host); cbn; [by inversion 1|].
  destruct options; cbn; try (by inversion 1);
    destruct (document_head_appendChild host); cbn; by inversion 1.
Qed.

(** A [try] block that completes took one of the two paths above. *)
Lemma load_try_completes module options thisArg p w w' :
  load_try host module options thisArg p w = (w', Normal tt) →
  ∃ url, locator_text module = Some url ∧
    ((isLoaded (loadedModules w) (moduleName (schema url)) = true ∧
      head w' = head w ∧ promises w' = settle p Fulfilled (promises w))
     ∨
     (isLoaded (loadedModules w) (moduleName (schema url)) = false ∧
      promises w' = promises w ∧
      ∃ origin href a,
        window_location_origin host = inr origin ∧
        new_URL_href host (busted url (clock w)) origin
          = inr href ∧
        options_async options = inr a ∧
        head w' = (head w ++
          [new_script a href (moduleName (schema url)) options thisArg p])%list)).
Proof.
  unfold load_try, schema_of. destruct (locator_text module) as [url|]; exec;
    [|by inversion 1].
  intros Hrun. exists url. split; [done|].
  destruct (isLoaded _ _); cbn in *.
  { left. by inversion Hrun. }
  right. split; [done|].
  destruct (window_location_origin host) as [|origin]; cbn in *; [by inversion Hrun|].
  destruct (new_URL_href host _ _) as [|href] eqn:Hhref; cbn in *;
    [by inversion Hrun|].
  destruct (document_createElement host); cbn in *; [by inversion Hrun|].
  destruct options as [| |a h]; cbn in *; try (by inversion Hrun);
    destruct (document_head_appendChild host); cbn in *; try (by inversion Hrun);
    inversion Hrun; subst; cbn; (split; [done|]);
    eexists origin, href, _; by repeat split.
Qed.

End LoadTry.

(** ** One call of [load] *)

Section LoadCall.
Variable host : Host.

Lemma load_unfold module options thisArg w :
  load host module options thisArg w =
  match load_try host module options thisArg (List.length (promises w))
          (allocate_promise w) with
  | (w1, Normal _) => (w1, Normal (List.length (promises w)))
  | (w1, Throw e) =>
      match fail_with options thisArg (List.length (promises w)) e w1 with
      | (w2, Normal _) => (w2, Normal (List.length (promises w)))
      | (w2, Throw x) =>
          (set_promises (settle (List.length (promises w)) (Rejected x)) w2,
           Normal (List.length (promises w)))
      end
  end.
Proof.
  unfold load, new_Promise, try_catch.
  destruct (load_try _ _ _ _ _ _) as [w1 [[]|e]]; [done|].
  by destruct (fail_with _ _ _ _ _) as [w2 [[]|x]].
Qed.

(** What a call does, whatever its arguments: it returns the promise
    it created, it writes neither registry nor slot nor clock, and
    either it appends nothing and the promise is settled, or it
    appends one fresh element bound to the still pending promise. *)
Lemma load_effect module options thisArg w :
  ∃ w' st,
    load host module options thisArg w = (w', Normal (List.length (promises w))) ∧
    promises w' = (promises w ++ [st])%list ∧
    loadedModules w' = loadedModules w ∧
    window_buster w' = window_buster w ∧ clock w' = clock w ∧
    ((head w' = head w ∧ st ≠ Pending) ∨
     (st = Pending ∧
      ∃ url origin href a,
        locator_text module = Some url ∧
        isLoaded (loadedModules w) (moduleName (schema url)) = false ∧
        window_location_origin host = inr origin ∧
        new_URL_href host (busted url (clock w)) origin
          = inr href ∧
        options_async options = inr a ∧
        head w' = (head w ++
          [new_script a href (moduleName (schema url)) options thisArg
             (List.length (promises w))])%list)).
Proof.
  rewrite load_unfold. set (p := List.length (promises w)).
  pose proof (load_try_frame host module options thisArg p (allocate_promise w))
    as (Hreg & Hslot & Hclock).
  destruct (load_try _ _ _ _ _ _) as [w1 [[]|e]] eqn:Htry; cbn in *.
  - apply load_try_completes in Htry as (url & -> & [(Hl & Hh & Hp)|(Hl & Hp & Hel)]).
    + exists w1, Fulfilled. split; [done|]. rewrite Hp. cbn.
      split; [apply settle_fresh|]. repeat (split; [done|]). by left.
    + destruct Hel as (origin & href & a & Ho & Hu & Ha & Hh).
      exists w1, Pending. split; [done|]. repeat (split; [done|]).
      right. split; [done|]. by exists url, origin, href, a.
  - apply load_try_throws in Htry as [Hp Hh]. cbn in Hp, Hh.
    destruct (fail_with_outcome options thisArg p e w1)
      as (w2 & c & -> & Hreg2 & Hh2 & Hslot2 & Hclock2 & Hp2).
    destruct c as [[]|x].
    + exists w2, (Rejected e). split; [done|].
      rewrite Hp2, Hp. split; [apply settle_fresh|].
      repeat (split; [congruence|]). left. split; [congruence|done].
    + exists (set_promises (settle p (Rejected x)) w2), (Rejected x).
      split; [done|]. cbn. rewrite Hp2, Hp. split; [apply settle_fresh|].
      repeat (split; [congruence|]). left. split; [congruence|done].
Qed.

End LoadCall.

Lemma settle_fresh_lookup s ps :
  settle (List.length ps) s (ps ++ [Pending])%list !! List.length ps = Some s.
Proof. rewrite settle_fresh. by apply list_lookup_middle. Qed.

(** C2. For every locator value, options value and binding context,
    and in every world, [load] completes normally and returns the
    promise it created; nothing is thrown to the caller.  When the
    [try] block throws [e], no element was appended, the failure is
    logged and the returned promise ends up rejected: after the
    [onError] hook was called once with [e] if one was supplied (with
    [e] itself when the hook returns, with what the hook threw
    otherwise), directly with [e] if none was supplied, and with the
    TypeError of reading [null.onError] when [options] is null. *)
Theorem load_returns_promise host module options thisArg w :
  ∃ w', load host module options thisArg w = (w', Normal (List.length (promises w))) ∧
    List.length (promises w') = S (List.length (promises w)) ∧
    ∀ w1 e,
      load_try host module options thisArg (List.length (promises w))
        (allocate_promise w) = (w1, Throw e) →
      head w' = head w ∧
      (∃ reason, promises w' !! List.length (promises w) = Some (Rejected reason)) ∧
      match options_onError options with
      | inr (Some h) =>
          match hook_body h (binding thisArg) e with
          | None =>
              trace w' = (trace w1 ++
                [ConsoleError "Error loading busted module:" e;
                 HookCall (hook_id h) (binding thisArg) e;
                 Reject (List.length (promises w)) (binding thisArg) e])%list ∧
              promises w' !! List.length (promises w) = Some (Rejected e)
          | Some x =>
              trace w' = (trace w1 ++
                [ConsoleError "Error loading busted module:" e;
                 HookCall (hook_id h) (binding thisArg) e])%list ∧
              promises w' !! List.length (promises w) = Some (Rejected x)
          end
      | inr None =>
          trace w' = (trace w1 ++
            [ConsoleError "Error loading busted module:" e;
             Reject (List.length (promises w)) (binding thisArg) e])%list ∧
          promises w' !! List.length (promises w) = Some (Rejected e)
      | inl x =>
          trace w' = (trace w1 ++
            [ConsoleError "Error loading busted module:" e])%list ∧
          promises w' !! List.length (promises w) = Some (Rejected x)
      end.
Proof.
  destruct (load_effect host module options thisArg w) as (w' & st & Hload & Hp & _).
  exists w'. split; [done|]. split; [rewrite Hp, length_app; cbn; lia|].
  intros w1 e Htry. rewrite load_unfold, Htry in Hload.
  apply load_try_throws in Htry as [Hp1 Hh1]. cbn in Hp1, Hh1.
  set (p := List.length (promises w)) in *.
  destruct options as [| |a [h|]]; cbn [options_onError].
  - destruct (fail_with_no_hook OptOmitted thisArg p e w1)
      as (w2 & Hf & Ht & Hp2 & _ & Hh2 & _); [by left|].
    rewrite Hf in Hload. inversion Hload; subst w2.
    assert (promises w' !! p = Some (Rejected e)) as Hrej
      by (rewrite Hp2, Hp1; apply settle_fresh_lookup).
    split; [congruence|]. split; [by eexists|]. done.
  - destruct (fail_with_null thisArg p e w1)
      as (w2 & x & Hf & Ht & Hp2 & _ & Hh2 & _).
    rewrite Hf in Hload. inversion Hload; subst w'. cbn.
    unfold fail_with in Hf. exec. inversion Hf; subst w2 x. cbn in *.
    assert (settle p (Rejected (TypeError
              "Cannot read properties of null (reading 'onError')"))
              (promises w1) !! p = Some (Rejected (TypeError
              "Cannot read properties of null (reading 'onError')"))) as Hrej
      by (rewrite Hp1; apply settle_fresh_lookup).
    split; [congruence|]. split; [by eexists|]. done.
  - destruct (hook_body h (binding thisArg) e) as [x|] eqn:Hb.
    + destruct (fail_with_hook_throws a h thisArg p e x w1 Hb)
        as (w2 & Hf & Ht & Hp2 & _ & Hh2 & _).
      rewrite Hf in Hload. inversion Hload; subst w'. cbn.
      assert (settle p (Rejected x) (promises w2) !! p = Some (Rejected x)) as Hrej
        by (rewrite Hp2, Hp1; apply settle_fresh_lookup).
      split; [congruence|]. split; [by eexists|]. done.
    + destruct (fail_with_hook_returns a h thisArg p e w1 Hb)
        as (w2 & Hf & Ht & Hp2 & _ & Hh2 & _).
      rewrite Hf in Hload. inversion Hload; subst w2.
      assert (promises w' !! p = Some (Rejected e)) as Hrej
        by (rewrite Hp2, Hp1; apply settle_fresh_lookup).
      split; [congruence|]. split; [by eexists|]. done.
  - destruct (fail_with_no_hook (OptObject a None) thisArg p e w1)
      as (w2 & Hf & Ht & Hp2 & _ & Hh2 & _); [right; by eexists|].
    rewrite Hf in Hload. inversion Hload; subst w2.
    assert (promises w' !! p = Some (Rejected e)) as Hrej
      by (rewrite Hp2, Hp1; apply settle_fresh_lookup).
    split; [congruence|]. split; [by eexists|]. done.
Qed.

(** ** The two completed paths of a call *)

Section LoadPaths.
Variable host : Host.

Lemma load_deduplicated url options thisArg w :
  isLoaded (loadedModules w) (moduleName (schema url)) = true →
  ∃ w', load host (VStr url) options thisArg w
        = (w', Normal (List.length (promises w))) ∧
    trace w' = (trace w ++
      [ConsoleWarn ("Module " ++ moduleName (schema url) ++ " is already loaded.");
       Resolve (List.length (promises w)) (binding thisArg)])%list ∧
    promises w' = (promises w ++ [Fulfilled])%list ∧
    head w' = head w ∧ loadedModules w' = loadedModules w ∧
    window_buster w' = window_buster w ∧ clock w' = clock w.
Proof.
  intros Hloaded. rewrite load_unfold.
  destruct (load_try_deduplicated host url options thisArg
              (List.length (promises w)) (allocate_promise w) Hloaded)
    as (w' & -> & Ht & Hp & Hrest).
  exists w'. split; [done|]. split; [done|].
  split; [rewrite Hp; apply settle_fresh|]. done.
Qed.

Lemma load_injects url options thisArg w origin href a :
  isLoaded (loadedModules w) (moduleName (schema url)) = false →
  window_location_origin host = inr origin →
  new_URL_href host (busted url (clock w)) origin = inr href →
  document_createElement host = None →
  options_async options = inr a →
  document_head_appendChild host = None →
  ∃ w', load host (VStr url) options thisArg w
        = (w', Normal (List.length (promises w))) ∧
    trace w' = (trace w ++
      [DateNow (clock w); CreateElement; AppendChild href])%list ∧
    head w' = (head w ++
      [new_script a href (moduleName (schema url)) options thisArg
         (List.length (promises w))])%list ∧
    promises w' = (promises w ++ [Pending])%list ∧
    loadedModules w' = loadedModules w ∧
    window_buster w' = window_buster w ∧ clock w' = clock w.
Proof.
  intros Hfresh Ho Hu Hc Ha Happ. rewrite load_unfold.
  destruct (load_try_injects host url options thisArg
              (List.length (promises w)) (allocate_promise w) origin href a
              Hfresh Ho Hu Hc Ha Happ)
    as (w' & -> & Hrest).
  exists w'. by split.
Qed.

(** The clock readings of one call. *)
Lemma load_try_tokens module options thisArg p w :
  tokens (trace (fst (load_try host module options thisArg p w)))
  = (tokens (trace w) ++ token_of module w)%list.
Proof.
  unfold load_try, schema_of, tokens, token_of.
  destruct (locator_text module) as [url|]; exec; rewrite ?app_nil_r; [|done].
  destruct (isLoaded _ _); cbn; [by rewrite !omap_app, app_nil_r|].
  destruct (window_location_origin host); cbn; [by rewrite !omap_app|].
  destruct (new_URL_href host _ _); cbn; [by rewrite !omap_app|].
  destruct (document_createElement host); cbn; [by rewrite !omap_app|].
  destruct options; cbn; try (by rewrite !omap_app, ?app_nil_r);
    destruct (document_head_appendChild host); cbn;
    by rewrite !omap_app, ?app_nil_r.
Qed.

Lemma fail_with_tokens options thisArg p e w :
  tokens (trace (fst (fail_with options thisArg p e w))) = tokens (trace w).
Proof.
  unfold tokens. destruct options as [| |a [h|]]; exec;
    try destruct (hook_body h _ _); cbn; by rewrite !omap_app, ?app_nil_r.
Qed.

Lemma load_tokens module options thisArg w :
  tokens (trace (fst (load host module options thisArg w)))
  = (tokens (trace w) ++ token_of module w)%list.
Proof.
  rewrite load_unfold.
  pose proof (load_try_tokens module options thisArg
                (List.length (promises w)) (allocate_promise w)) as Htry.
  change (token_of module (allocate_promise w)) with (token_of module w) in Htry.
  change (trace (allocate_promise w)) with (trace w) in Htry.
  destruct (load_try _ _ _ _ _ _) as [w1 [[]|e]]; cbn in *; [done|].
  pose proof (fail_with_tokens options thisArg (List.length (promises w)) e w1)
    as Hfail.
  destruct (fail_with _ _ _ _ _) as [w2 [[]|x]]; cbn [fst] in *; [congruence|].
  change (trace (set_promises _ w2)) with (trace w2). congruence.
Qed.

End LoadPaths.

(** ** One turn of the event loop *)

(** [$noConflict] can only clear the slot. *)
Lemma noConflict_world host w :
  fst (noConflict host w) = w ∨
  fst (noConflict host w) = set_window_buster VUndefined w.
Proof.
  unfold noConflict. destruct (window host); [|by left]. exec.
  destruct (strict_eq _ _); [by right|by left].
Qed.

Lemma markLoaded_keeps name other reg :
  reg !! name = Some true → markLoaded other reg !! name = Some true.
Proof.
  intros Hname. unfold markLoaded. destruct (String.eqb other "__proto__"); [done|].
  destruct (decide (other = name)) as [->|Hne].
  - by rewrite lookup_insert_eq.
  - by rewrite lookup_insert_ne.
Qed.

Section Steps.
Variable host : Host.

Lemma deliver_skipped i handler w :
  head w !! i = None ∨ (∃ el, head w !! i = Some el ∧ fired el = true) →
  deliver i handler w = (w, Normal tt).
Proof.
  unfold deliver. intros [->|(el & -> & ->)]; done.
Qed.

Lemma deliver_fires i handler w el :
  head w !! i = Some el → fired el = false →
  deliver i handler w
  = handler el (set_head (λ h, <[i := mark_fired el]> h) w).
Proof. unfold deliver. by intros -> ->. Qed.

Lemma pending_or_not i w :
  (head w !! i = None ∨ (∃ el, head w !! i = Some el ∧ fired el = true)) ∨
  (∃ el, head w !! i = Some el ∧ fired el = false).
Proof.
  destruct (head w !! i) as [el|]; [|by left; left].
  destruct (fired el) eqn:Hf; [left; right|right]; by exists el.
Qed.

(** The load event of an element still waiting for it. *)
Lemma step_LoadEvent w i el :
  head w !! i = Some el → fired el = false →
  let w' := step host w (LoadEvent i) in
  loadedModules w' = markLoaded (el_moduleName el) (loadedModules w) ∧
  head w' = <[i := mark_fired el]> (head w) ∧
  promises w' = settle (el_promise el) Fulfilled (promises w) ∧
  trace w' = (trace w ++ [Resolve (el_promise el) (binding (el_thisArg el))])%list ∧
  window_buster w' = window_buster w ∧ clock w' = clock w.
Proof.
  intros Hel Hf. cbn. rewrite (deliver_fires _ _ _ _ Hel Hf). by exec.
Qed.

(** The error event of an element still waiting for it. *)
Lemma step_ErrorEvent w i e el :
  head w !! i = Some el → fired el = false →
  let w' := step host w (ErrorEvent i e) in
  step host w (ErrorEvent i e)
  = fst (fail_with (el_options el) (el_thisArg el) (el_promise el) e
           (set_head (λ h, <[i := mark_fired el]> h) w)) ∧
  loadedModules w' = loadedModules w ∧
  head w' = <[i := mark_fired el]> (head w) ∧
  (promises w' = promises w ∨
   promises w' = settle (el_promise el) (Rejected e) (promises w)) ∧
  window_buster w' = window_buster w ∧ clock w' = clock w.
Proof.
  intros Hel Hf. cbn. rewrite (deliver_fires _ _ _ _ Hel Hf). unfold onerror.
  split; [done|].
  destruct (fail_with_outcome (el_options el) (el_thisArg el) (el_promise el) e
              (set_head (λ h, <[i := mark_fired el]> h) w))
    as (w' & c & -> & Hreg & Hh & Hslot & Hclock & Hp).
  cbn in *. repeat (split; [done|]). split; [|done].
  destruct c; [by right|by left].
Qed.

Lemma step_event_skipped w i :
  head w !! i = None ∨ (∃ el, head w !! i = Some el ∧ fired el = true) →
  step host w (LoadEvent i) = w ∧ ∀ e, step host w (ErrorEvent i e) = w.
Proof.
  intros Hskip. cbn. split; [|intros e]; by rewrite deliver_skipped.
Qed.

(** Only the load event of a waiting element writes the registry, and
    what it writes is that element's module name. *)
Lemma step_registry w ev :
  loadedModules (step host w ev) = loadedModules w ∨
  ∃ i el, ev = LoadEvent i ∧ head w !! i = Some el ∧ fired el = false ∧
    loadedModules (step host w ev)
    = markLoaded (el_moduleName el) (loadedModules w).
Proof.
  destruct ev as [m o t|m o t| |v|i|i e|dt].
  - left. cbn. destruct (load_effect host m o t w) as (w' & st & -> & ? & ? & ?).
    done.
  - left. cbn. unfold bust.
    destruct (load_effect host m o t w) as (w' & st & -> & ? & ? & ?). done.
  - left. cbn. by destruct (noConflict_world host w) as [-> | ->].
  - by left.
  - destruct (pending_or_not i w) as [Hskip|(el & Hel & Hf)].
    + left. by rewrite (proj1 (step_event_skipped w i Hskip)).
    + right. exists i, el. repeat (split; [done|]).
      by destruct (step_LoadEvent w i el Hel Hf) as (-> & _).
  - left. destruct (pending_or_not i w) as [Hskip|(el & Hel & Hf)].
    + by rewrite (proj2 (step_event_skipped w i Hskip)).
    + by destruct (step_ErrorEvent w i e el Hel Hf) as (_ & -> & _).
  - by left.
Qed.

End Steps.

(** ** Elements and their promises *)

Lemma mark_fired_promises i el (h : list Script) :
  h !! i = Some el →
  el_promise <$> <[i := mark_fired el]> h = el_promise <$> h.
Proof.
  intros Hel. rewrite list_fmap_insert. apply list_insert_id.
  by rewrite list_lookup_fmap, Hel.
Qed.

Lemma well_formed_initial slot t : well_formed (initial slot t).
Proof.
  split; [constructor|]. split; [constructor|]. by intros i el.
Qed.

Section WellFormed.
Variable host : Host.

Lemma well_formed_call module options thisArg w :
  well_formed w → well_formed (fst (load host module options thisArg w)).
Proof.
  intros (Hlt & Hnd & Hpend).
  destruct (load_effect host module options thisArg w)
    as (w' & st & -> & Hp & _ & _ & _ & Hhead). cbn.
  assert (Forall (λ p, p < List.length (promises w')) (el_promise <$> head w))
    as Hlt'.
  { eapply Forall_impl; [exact Hlt|]. intros q Hq. cbn beta in Hq.
    rewrite Hp, length_app. cbn. lia. }
  assert (∀ i el, head w !! i = Some el → fired el = false →
            promises w' !! el_promise el = Some Pending) as Hpend'.
  { intros i el Hel Hf. rewrite Hp, lookup_app_l; [by eapply Hpend|].
    rewrite Forall_forall in Hlt. apply Hlt.
    apply list_elem_of_lookup. exists i. by rewrite list_lookup_fmap, Hel. }
  destruct Hhead as [[Hh _]|(-> & url & origin & href & a & _ & _ & _ & _ & _ & Hh)];
    unfold well_formed; rewrite Hh.
  - done.
  - rewrite fmap_app. cbn. split; [|split].
    + apply Forall_app. split; [done|]. constructor; [|constructor].
      rewrite Hp, length_app. cbn. lia.
    + apply NoDup_app. split; [done|]. split; [|apply NoDup_singleton].
      intros q Hq ->%list_elem_of_singleton.
      rewrite Forall_forall in Hlt. specialize (Hlt _ Hq). lia.
    + intros i el [[Hi Hel]|[Hi <-]]%lookup_snoc_Some Hf.
      * by eapply Hpend'.
      * cbn. rewrite Hp. by apply list_lookup_middle.
Qed.

Lemma well_formed_fired w i el w' s :
  well_formed w → head w !! i = Some el → fired el = false →
  head w' = <[i := mark_fired el]> (head w) →
  promises w' = promises w ∨ promises w' = settle (el_promise el) s (promises w) →
  well_formed w'.
Proof.
  intros (Hlt & Hnd & Hpend) Hel Hf Hh Hp.
  assert (List.length (promises w') = List.length (promises w)) as Hlen.
  { destruct Hp as [->| ->]; [done|apply settle_length]. }
  split; [|split].
  - rewrite Hh, (mark_fired_promises _ _ _ Hel), Hlen. done.
  - by rewrite Hh, (mark_fired_promises _ _ _ Hel).
  - intros j el' Hel' Hf'. rewrite Hh in Hel'.
    apply list_lookup_insert_Some in Hel' as [(_ & <- & _)|[Hne Hel']]; [done|].
    assert (el_promise el ≠ el_promise el') as Hdiff.
    { intros Heq. apply Hne.
      eapply (NoDup_lookup _ i j (el_promise el) Hnd);
        rewrite list_lookup_fmap; [by rewrite Hel|by rewrite Hel', Heq]. }
    destruct Hp as [->| ->]; [by eapply Hpend|].
    rewrite settle_other by done. by eapply Hpend.
Qed.

Lemma well_formed_step w ev : well_formed w → well_formed (step host w ev).
Proof.
  intros Hwf. destruct ev as [m o t|m o t| |v|i|i e|dt].
  - by apply well_formed_call.
  - by apply well_formed_call.
  - cbn. by destruct (noConflict_world host w) as [-> | ->].
  - done.
  - destruct (pending_or_not i w) as [Hskip|(el & Hel & Hf)].
    + by rewrite (proj1 (step_event_skipped host w i Hskip)).
    + destruct (step_LoadEvent host w i el Hel Hf) as (_ & Hh & Hp & _).
      eapply well_formed_fired; eauto.
  - destruct (pending_or_not i w) as [Hskip|(el & Hel & Hf)].
    + by rewrite (proj2 (step_event_skipped host w i Hskip)).
    + destruct (step_ErrorEvent host w i e el Hel Hf) as (_ & _ & Hh & Hp & _).
      eapply well_formed_fired; eauto.
  - done.
Qed.

Lemma run_snoc w evs ev : run host w (evs ++ [ev]) = step host (run host w evs) ev.
Proof. unfold run. by rewrite fold_left_app. Qed.

Lemma well_formed_run w evs : well_formed w → well_formed (run host w evs).
Proof.
  intros Hwf. induction evs as [|ev evs IH] using rev_ind; [done|].
  rewrite run_snoc. by apply well_formed_step.
Qed.

End WellFormed.

(** ** Deduplication *)

Lemma registry_run_keeps host w evs name :
  loadedModules w !! name = Some true →
  loadedModules (run host w evs) !! name = Some true.
Proof.
  intros Hname. induction evs as [|ev evs IH] using rev_ind; [done|].
  rewrite run_snoc.
  destruct (step_registry host (run host w evs) ev)
    as [->|(i & el & _ & _ & _ & ->)]; [done|].
  by apply markLoaded_keeps.
Qed.

Lemma recorded_isLoaded reg name : reg !! name = Some true → isLoaded reg name = true.
Proof. unfold isLoaded. by intros ->. Qed.

(** C1. A call whose locator parses to a name recorded as loaded warns
    and fulfils its promise at once; it appends no element, reads no
    clock and leaves the registry as it was.  A turn of the event loop
    changes the registry only when it is the load event of a waiting
    element, and then by marking that element's module name.  A name
    recorded as loaded stays recorded over every run. *)
Theorem load_deduplicates_loaded_names host :
  (∀ w url options thisArg,
     loadedModules w !! moduleName (schema url) = Some true →
     ∃ w', load host (VStr url) options thisArg w
           = (w', Normal (List.length (promises w))) ∧
       trace w' = (trace w ++
         [ConsoleWarn ("Module " ++ moduleName (schema url) ++ " is already loaded.");
          Resolve (List.length (promises w)) (binding thisArg)])%list ∧
       promises w' = (promises w ++ [Fulfilled])%list ∧
       head w' = head w ∧ loadedModules w' = loadedModules w) ∧
  (∀ w ev,
     loadedModules (step host w ev) = loadedModules w ∨
     ∃ i el, ev = LoadEvent i ∧ head w !! i = Some el ∧ fired el = false ∧
       loadedModules (step host w ev)
       = markLoaded (el_moduleName el) (loadedModules w)) ∧
  (∀ w evs name,
     loadedModules w !! name = Some true →
     loadedModules (run host w evs) !! name = Some true).
Proof.
  split; [|split].
  - intros w url options thisArg Hrec.
    destruct (load_deduplicated host url options thisArg w
                (recorded_isLoaded _ _ Hrec))
      as (w' & Hl & Ht & Hp & Hh & Hreg & _).
    by exists w'.
  - apply step_registry.
  - apply registry_run_keeps.
Qed.

Lemma load_deduplicates_loaded_names_witness :
  loadedModules after_first_load !! "bustMe" = Some true ∧
  ∃ w', load page bustMe OptOmitted VUndefined after_first_load = (w', Normal 1) ∧
    trace w' = (trace after_first_load ++
      [ConsoleWarn "Module bustMe is already loaded."; Resolve 1 None])%list ∧
    head w' = head after_first_load.
Proof.
  assert (loadedModules after_first_load !! "bustMe" = Some true) as Hrec
    by (vm_compute; reflexivity).
  split; [exact Hrec|].
  destruct (load_deduplicates_loaded_names page) as [Hdedup _].
  destruct (Hdedup after_first_load "/modules/bustMe.js" OptOmitted VUndefined Hrec)
    as (w' & Hl & Ht & _ & Hh & _).
  exists w'. split; [exact Hl|]. split; [exact Ht|exact Hh].
Defined.

Lemma load_returns_promise_witness :
  ∃ w', load headless bustMe (OptObject VUndefined (Some logging_hook)) VUndefined epoch0
        = (w', Normal 0) ∧
    promises w' !! 0 = Some (Rejected (VError "ReferenceError" "window is not defined")).
Proof.
  destruct (load_returns_promise headless bustMe
              (OptObject VUndefined (Some logging_hook)) VUndefined epoch0)
    as (w' & Hl & _ & Hcaught).
  exists w'. split; [exact Hl|].
  destruct (Hcaught _ _ eq_refl) as (_ & _ & Hhook).
  exact (proj2 Hhook).
Defined.

(** ** The requested URL *)

(** C3. A call that is not deduplicated either appends nothing (a host
    expression threw) or appends exactly one element, and then the
    element's [src] is the [href] the host's URL resolution gives for
    the locator with [?cacheBuster=] and the decimal clock reading
    appended, resolved against [window.location.origin].  The text
    handed to the resolution is literally the locator followed by
    [?cacheBuster=<token>], whatever the locator contains.  When every
    host expression completes the element is appended. *)
Theorem load_requests_busted_url host url options thisArg w :
  isLoaded (loadedModules w) (moduleName (schema url)) = false →
  ∃ w', load host (VStr url) options thisArg w
        = (w', Normal (List.length (promises w))) ∧
    (head w' = head w ∨
     ∃ el origin, head w' = (head w ++ [el])%list ∧
       window_location_origin host = inr origin ∧
       new_URL_href host (url ++ "?cacheBuster=" ++ pretty (clock w)) origin
       = inr (src el)) ∧
    (∀ origin href a,
       window_location_origin host = inr origin →
       new_URL_href host (url ++ "?cacheBuster=" ++ pretty (clock w)) origin
       = inr href →
       document_createElement host = None →
       options_async options = inr a →
       document_head_appendChild host = None →
       ∃ el, head w' = (head w ++ [el])%list ∧ src el = href ∧
         trace w' = (trace w ++
           [DateNow (clock w); CreateElement; AppendChild href])%list).
Proof.
  intros Hfresh.
  destruct (load_effect host (VStr url) options thisArg w)
    as (w' & st & Hl & _ & _ & _ & _ & Hhead).
  exists w'. split; [done|]. split.
  - destruct Hhead as [[Hh _]|(_ & url' & origin & href & a & [= <-] & _ & Ho & Hu & _ & Hh)].
    + by left.
    + right. eexists _, origin. split; [exact Hh|]. by split.
  - intros origin href a Ho Hu Hc Ha Happ.
    destruct (load_injects host url options thisArg w origin href a
                Hfresh Ho Hu Hc Ha Happ) as (w2 & Hl2 & Ht & Hh & _).
    rewrite Hl in Hl2. inversion Hl2; subst w2.
    eexists. split; [exact Hh|]. by split.
Qed.

Lemma load_requests_busted_url_witness :
  ∃ w', load page bustMe OptOmitted VUndefined epoch0 = (w', Normal 0) ∧
    ∃ el, head w' = [el] ∧
      src el = "https://example.test/modules/bustMe.js?cacheBuster=1700000000000".
Proof.
  destruct (load_requests_busted_url page "/modules/bustMe.js" OptOmitted
              VUndefined epoch0 eq_refl) as (w' & Hl & _ & Hinject).
  exists w'. split; [exact Hl|].
  destruct (Hinject "https://example.test"
              "https://example.test/modules/bustMe.js?cacheBuster=1700000000000"
              VUndefined eq_refl eq_refl eq_refl eq_refl eq_refl)
    as (el & Hh & Hsrc & _).
  exists el. split; [exact Hh|exact Hsrc].
Defined.

(** ** Failure of an injected element *)

(** C4, as stated, fails.  A binding context that is given but falsy
    (here 0) is not bound: [if (thisArg)] sends the hook to the plain
    method call [options.onError(error)].  Nor does the rejection
    follow for every supplied hook: with one that throws, the handler
    has logged the error and called the hook once when it ends, and
    [reject] was not reached. *)
Lemma onerror_unbound_context_and_throwing_hook :
  trace failed_with_falsy_context
  = [DateNow 1700000000000; CreateElement;
     AppendChild "https://example.test/x/missing.v2.js?cacheBuster=1700000000000";
     ConsoleError "Error loading busted module:" failure_event;
     HookCall 1 None failure_event;
     Reject 0 None failure_event] ∧
  promises failed_with_throwing_hook = [Pending] ∧
  trace failed_with_throwing_hook
  = [DateNow 1700000000000; CreateElement;
     AppendChild "https://example.test/x/missing.v2.js?cacheBuster=1700000000000";
     ConsoleError "Error loading busted module:" failure_event;
     HookCall 2 None failure_event].
Proof. repeat split; vm_compute; reflexivity. Qed.

(** C4, amended.  In every world reached from an initial one, when
    the error event [e] is delivered to a waiting element whose call
    supplied [onError], the promise of that call is pending, and the
    handler logs [e] and then calls the hook, with [e], bound to the
    binding context when that is truthy and as a plain method of
    [options] otherwise; it calls no hook again in that turn.  When the
    hook returns, the promise is rejected with [e] right after. *)
Theorem onerror_calls_hook_then_rejects host slot t0 evs i el a h e :
  head (run host (initial slot t0) evs) !! i = Some el →
  fired el = false →
  el_options el = OptObject a (Some h) →
  promises (run host (initial slot t0) evs) !! el_promise el = Some Pending ∧
  (∃ rest,
     trace (step host (run host (initial slot t0) evs) (ErrorEvent i e))
     = (trace (run host (initial slot t0) evs) ++
        [ConsoleError "Error loading busted module:" e;
         HookCall (hook_id h) (binding (el_thisArg el)) e] ++ rest)%list ∧
     Forall (λ o, ∀ id this e', o ≠ HookCall id this e') rest) ∧
  (hook_body h (binding (el_thisArg el)) e = None →
     trace (step host (run host (initial slot t0) evs) (ErrorEvent i e))
     = (trace (run host (initial slot t0) evs) ++
        [ConsoleError "Error loading busted module:" e;
         HookCall (hook_id h) (binding (el_thisArg el)) e;
         Reject (el_promise el) (binding (el_thisArg el)) e])%list ∧
     promises (step host (run host (initial slot t0) evs) (ErrorEvent i e))
       !! el_promise el = Some (Rejected e)).
Proof.
  set (w := run host (initial slot t0) evs). intros Hel Hf Hopt.
  pose proof (well_formed_run host _ evs (well_formed_initial slot t0))
    as (_ & _ & Hpend).
  fold w in Hpend. specialize (Hpend i el Hel Hf).
  destruct (step_ErrorEvent host w i e el Hel Hf) as (-> & _).
  rewrite Hopt. split; [done|].
  destruct (hook_body h (binding (el_thisArg el)) e) as [x|] eqn:Hbody.
  - destruct (fail_with_hook_throws a h (el_thisArg el) (el_promise el) e x
                (set_head (λ hd, <[i := mark_fired el]> hd) w) Hbody)
      as (w' & -> & Ht & _).
    cbn in *. split; [|done]. exists []. split; [done|constructor].
  - destruct (fail_with_hook_returns a h (el_thisArg el) (el_promise el) e
                (set_head (λ hd, <[i := mark_fired el]> hd) w) Hbody)
      as (w' & -> & Ht & Hp & _).
    cbn in *. split.
    + exists [Reject (el_promise el) (binding (el_thisArg el)) e].
      split; [done|]. by repeat constructor.
    + intros _. split; [done|]. rewrite Hp. by apply settle_pending.
Qed.

Lemma onerror_calls_hook_then_rejects_witness :
  promises pending_load !! 0 = Some Pending ∧
  promises (step page pending_load (ErrorEvent 0 failure_event)) !! 0
  = Some (Rejected failure_event) ∧
  trace (step page pending_load (ErrorEvent 0 failure_event))
  = (trace pending_load ++
     [ConsoleError "Error loading busted module:" failure_event;
      HookCall 1 (Some (VObj 5)) failure_event;
      Reject 0 (Some (VObj 5)) failure_event])%list.
Proof.
  destruct (onerror_calls_hook_then_rejects page VUndefined 1700000000000
              [CallLoad missing (OptObject VUndefined (Some logging_hook)) (VObj 5)]
              0
              (new_script VUndefined
                 "https://example.test/x/missing.v2.js?cacheBuster=1700000000000"
                 "missing" (OptObject VUndefined (Some logging_hook)) (VObj 5) 0)
              VUndefined logging_hook failure_event eq_refl eq_refl eq_refl)
    as (Hpending & _ & Hreturns).
  destruct (Hreturns eq_refl) as [Htrace Hrejected].
  split; [exact Hpending|]. split; [exact Hrejected|exact Htrace].
Defined.

(** ** Freshness tokens *)

Lemma tokens_snoc tr o :
  tokens (tr ++ [o])
  = (tokens tr ++ match o with DateNow t => [t] | _ => [] end)%list.
Proof. unfold tokens. rewrite omap_app. by destruct o. Qed.

Lemma append_cancel (s a b : string) : s ++ a = s ++ b → a = b.
Proof. induction s as [|c s IH]; cbn; [done|]. intros [= H]. by apply IH. Qed.

Lemma busted_inj url t1 t2 : busted url t1 = busted url t2 ↔ t1 = t2.
Proof.
  split; [|by intros ->]. unfold busted. intros H.
  apply append_cancel in H.
  apply (append_cancel "?cacheBuster=") in H.
  by apply (inj pretty) in H.
Qed.

Lemma sorted_snoc (l : list Z) (t : Z) :
  StronglySorted Z.le l → Forall (λ x, (x ≤ t)%Z) l →
  StronglySorted Z.le (l ++ [t]).
Proof.
  induction 1 as [|x l Hs IH Hx]; cbn; intros Hle.
  - repeat constructor.
  - apply Forall_cons in Hle as [Hxt Hle]. constructor; [by apply IH|].
    apply Forall_app. split; [done|]. by repeat constructor.
Qed.

Section Tokens.
Variable host : Host.

Lemma token_of_bounded module w : token_of module w = [] ∨ token_of module w = [clock w].
Proof.
  unfold token_of. destruct (locator_text module); [|by left].
  destruct (isLoaded _ _); [by left|by right].
Qed.

Lemma step_tokens w ev :
  tokens (trace (step host w ev)) = (tokens (trace w) ++ token_of_event ev w)%list.
Proof.
  destruct ev as [m o t|m o t| |v|i|i e|dt]; cbn [token_of_event step];
    rewrite ?app_nil_r.
  - apply load_tokens.
  - apply load_tokens.
  - by destruct (noConflict_world host w) as [-> | ->].
  - done.
  - destruct (pending_or_not i w) as [Hskip|(el & Hel & Hf)].
    + by rewrite deliver_skipped.
    + destruct (step_LoadEvent host w i el Hel Hf) as (_ & _ & _ & Ht & _).
      cbn in Ht. rewrite Ht, tokens_snoc. by rewrite app_nil_r.
  - destruct (pending_or_not i w) as [Hskip|(el & Hel & Hf)].
    + by rewrite deliver_skipped.
    + destruct (step_ErrorEvent host w i e el Hel Hf) as (Hstep & _).
      cbn in Hstep. rewrite Hstep. by rewrite fail_with_tokens.
  - done.
Qed.

Lemma step_clock w ev : (clock w ≤ clock (step host w ev))%Z.
Proof.
  destruct ev as [m o t|m o t| |v|i|i e|dt]; cbn [step].
  - destruct (load_effect host m o t w) as (w' & st & -> & _ & _ & _ & Hc & _).
    cbn. lia.
  - unfold bust.
    destruct (load_effect host m o t w) as (w' & st & -> & _ & _ & _ & Hc & _).
    cbn. lia.
  - by destruct (noConflict_world host w) as [-> | ->].
  - done.
  - destruct (pending_or_not i w) as [Hskip|(el & Hel & Hf)].
    + by rewrite deliver_skipped.
    + destruct (step_LoadEvent host w i el Hel Hf) as (_ & _ & _ & _ & _ & Hc).
      cbn in Hc. lia.
  - destruct (pending_or_not i w) as [Hskip|(el & Hel & Hf)].
    + by rewrite deliver_skipped.
    + destruct (step_ErrorEvent host w i e el Hel Hf) as (_ & _ & _ & _ & _ & Hc).
      cbn in Hc. lia.
  - cbn. lia.
Qed.

(** Along a run the recorded readings are sorted and bounded by the
    clock. *)
Lemma run_tokens_sorted slot t0 evs :
  StronglySorted Z.le (tokens (trace (run host (initial slot t0) evs))) ∧
  Forall (λ t, (t ≤ clock (run host (initial slot t0) evs))%Z)
    (tokens (trace (run host (initial slot t0) evs))).
Proof.
  induction evs as [|ev evs [IHs IHb]] using rev_ind.
  - split; constructor.
  - rewrite run_snoc. set (w := run host (initial slot t0) evs) in *.
    rewrite step_tokens. pose proof (step_clock w ev) as Hclock.
    assert (Forall (λ t, (t ≤ clock (step host w ev))%Z) (tokens (trace w)))
      as Hb'.
    { eapply Forall_impl; [exact IHb|]. intros t Ht. cbn beta in Ht. lia. }
    assert (token_of_event ev w = [] ∨ token_of_event ev w = [clock w]) as [->| ->].
    { destruct ev; cbn; try (by left); apply token_of_bounded. }
    + by rewrite app_nil_r.
    + split; [by apply sorted_snoc|].
      apply Forall_app. split; [done|]. by repeat constructor.
Qed.

End Tokens.

(** C8, as stated, fails: two calls for the same resource within one
    millisecond are both injected, read the same clock value and
    request the very same URL. *)
Lemma same_millisecond_same_url :
  src <$> head two_calls_same_ms
  = ["https://example.test/modules/bustMe.js?cacheBuster=1700000000000";
     "https://example.test/modules/bustMe.js?cacheBuster=1700000000000"] ∧
  tokens (trace two_calls_same_ms) = [1700000000000; 1700000000000]%Z.
Proof. split; vm_compute; reflexivity. Qed.

(** C8, amended.  A call reads the clock once, at the moment of the
    call, exactly when it is not deduplicated, and that reading is its
    token: whenever a call appends an element, the trace gains the one
    reading [clock w] and the element's [src] is what the host resolves
    the locator followed by [?cacheBuster=] and that same reading to.
    Over every run from an initial world the tokens are non-decreasing
    in call order.  Two constructed locators for the same resource are
    equal exactly when their tokens are: they differ when the clock
    advanced between the calls and coincide when both calls fall in the
    same millisecond. *)
Theorem tokens_follow_clock host :
  (∀ module options thisArg w,
     tokens (trace (fst (load host module options thisArg w)))
     = (tokens (trace w) ++ token_of module w)%list) ∧
  (∀ url w,
     isLoaded (loadedModules w) (moduleName (schema url)) = false →
     token_of (VStr url) w = [clock w]) ∧
  (∀ url options thisArg w el,
     head (fst (load host (VStr url) options thisArg w)) = (head w ++ [el])%list →
     tokens (trace (fst (load host (VStr url) options thisArg w)))
     = (tokens (trace w) ++ [clock w])%list ∧
     ∃ origin, window_location_origin host = inr origin ∧
       new_URL_href host (url ++ "?cacheBuster=" ++ pretty (clock w)) origin
       = inr (src el)) ∧
  (∀ slot t0 evs,
     StronglySorted Z.le (tokens (trace (run host (initial slot t0) evs)))) ∧
  (∀ url (t1 t2 : Z),
     url ++ "?cacheBuster=" ++ pretty t1 = url ++ "?cacheBuster=" ++ pretty t2
     ↔ t1 = t2).
Proof.
  split; [apply load_tokens|].
  split; [intros url w Hfresh; cbn; by rewrite Hfresh|]. split.
  - intros url options thisArg w el Hhead. rewrite load_tokens.
    destruct (load_effect host (VStr url) options thisArg w)
      as (w' & st & Hl & _ & _ & _ & _ & Hcases).
    rewrite Hl in Hhead. cbn [fst] in Hhead.
    destruct Hcases
      as [[Hh _]|(_ & u & origin & href & a & [= <-] & Hfresh & Ho & Hu & _ & Hh)].
    + rewrite Hh in Hhead. apply (f_equal List.length) in Hhead.
      rewrite length_app in Hhead. cbn in Hhead. lia.
    + rewrite Hh in Hhead. apply app_inj_tail in Hhead as [_ <-].
      split; [cbn; by rewrite Hfresh|].
      exists origin. by split.
  - split; [|apply busted_inj]. intros slot t0 evs.
    apply (run_tokens_sorted host slot t0 evs).
Qed.

Lemma tokens_follow_clock_witness :
  tokens (trace (fst (load page bustMe OptOmitted VUndefined epoch0)))
  = [1700000000000%Z] ∧
  (∃ origin, window_location_origin page = inr origin ∧
     new_URL_href page ("/modules/bustMe.js?cacheBuster=1700000000000") origin
     = inr "https://example.test/modules/bustMe.js?cacheBuster=1700000000000") ∧
  StronglySorted Z.le
    (tokens (trace (run page (initial VUndefined 1700000000000)
       [CallLoad bustMe OptOmitted VUndefined; Tick 5;
        CallLoad bustMe OptOmitted VUndefined]))).
Proof.
  destruct (tokens_follow_clock page) as (Hcall & Hfresh & Hurl & Hsorted & _).
  split; [|split].
  - rewrite Hcall. exact (Hfresh "/modules/bustMe.js" epoch0 eq_refl).
  - exact (proj2 (Hurl "/modules/bustMe.js" OptOmitted VUndefined epoch0
                    (new_script VUndefined
                       "https://example.test/modules/bustMe.js?cacheBuster=1700000000000"
                       "bustMe" OptOmitted VUndefined 0) eq_refl)).
  - apply Hsorted.
Defined.

(** ** Failure and the registry *)

Lemma load_registry host module options thisArg w :
  loadedModules (fst (load host module options thisArg w)) = loadedModules w.
Proof.
  by destruct (load_effect host module options thisArg w) as (w' & st & -> & _ & Hreg & _).
Qed.

Lemma error_event_registry host w i e :
  loadedModules (step host w (ErrorEvent i e)) = loadedModules w.
Proof.
  destruct (pending_or_not i w) as [Hskip|(el & Hel & Hf)].
  - by rewrite (proj2 (step_event_skipped host w i Hskip)).
  - by destruct (step_ErrorEvent host w i e el Hel Hf) as (_ & -> & _).
Qed.

Lemma token_of_fresh url w :
  isLoaded (loadedModules w) (moduleName (schema url)) = false →
  token_of (VStr url) w = [clock w].
Proof. intros Hfresh. cbn. by rewrite Hfresh. Qed.

(** C9. Neither the error event of an element nor a call of [load]
    (whether or not its [try] block throws) writes the registry.  So
    after a call that injected an element and the error event of that
    element, and likewise after a call whose [try] block threw, the
    module name is still not loaded, and a later call for a locator
    with the same name is not deduplicated: it reads the clock for a
    new token and goes on to inject. *)
Theorem failure_leaves_registry host :
  (∀ w i e, loadedModules (step host w (ErrorEvent i e)) = loadedModules w) ∧
  (∀ w module options thisArg,
     loadedModules (fst (load host module options thisArg w)) = loadedModules w) ∧
  (∀ w url options thisArg e url' options' thisArg',
     moduleName (schema url') = moduleName (schema url) →
     List.length (head (step host w (CallLoad (VStr url) options thisArg)))
     = S (List.length (head w)) →
     isLoaded
       (loadedModules
          (run host w [CallLoad (VStr url) options thisArg;
                       ErrorEvent (List.length (head w)) e]))
       (moduleName (schema url')) = false ∧
     tokens (trace (step host
       (run host w [CallLoad (VStr url) options thisArg;
                    ErrorEvent (List.length (head w)) e])
       (CallLoad (VStr url') options' thisArg')))
     = (tokens (trace
          (run host w [CallLoad (VStr url) options thisArg;
                       ErrorEvent (List.length (head w)) e])) ++
        [clock (run host w [CallLoad (VStr url) options thisArg;
                            ErrorEvent (List.length (head w)) e])])%list) ∧
  (∀ w url options thisArg w1 e url' options' thisArg',
     moduleName (schema url') = moduleName (schema url) →
     load_try host (VStr url) options thisArg (List.length (promises w))
       (allocate_promise w) = (w1, Throw e) →
     isLoaded (loadedModules (step host w (CallLoad (VStr url) options thisArg)))
       (moduleName (schema url')) = false ∧
     tokens (trace (step host
       (step host w (CallLoad (VStr url) options thisArg))
       (CallLoad (VStr url') options' thisArg')))
     = (tokens (trace (step host w (CallLoad (VStr url) options thisArg))) ++
        [clock (step host w (CallLoad (VStr url) options thisArg))])%list).
Proof.
  split; [apply error_event_registry|].
  split; [intros; apply load_registry|]. split.
  - intros w url options thisArg e url' options' thisArg' Hname Hlen.
    set (w2 := run host w _).
    assert (loadedModules w2 = loadedModules w) as Hreg.
    { unfold w2. cbn [run fold_left]. rewrite error_event_registry.
      apply load_registry. }
    assert (isLoaded (loadedModules w) (moduleName (schema url)) = false) as Hfresh.
    { cbn [step] in Hlen.
      destruct (load_effect host (VStr url) options thisArg w)
        as (w' & st & Hl & _ & _ & _ & _ & Hhead).
      rewrite Hl in Hlen. cbn in Hlen.
      destruct Hhead as [[Hh _]|(_ & u & origin & href & a & [= <-] & Hf & _)].
      - rewrite Hh in Hlen. lia.
      - done. }
    assert (isLoaded (loadedModules w2) (moduleName (schema url')) = false) as Hfresh2
      by (by rewrite Hreg, Hname).
    split; [done|]. rewrite step_tokens. cbn [token_of_event].
    by rewrite (token_of_fresh _ _ Hfresh2).
  - intros w url options thisArg w1 e url' options' thisArg' Hname Htry.
    set (w2 := step host w _).
    assert (loadedModules w2 = loadedModules w) as Hreg by apply load_registry.
    assert (isLoaded (loadedModules w) (moduleName (schema url)) = false) as Hfresh.
    { destruct (isLoaded (loadedModules w) (moduleName (schema url))) eqn:Hl; [|done].
      destruct (load_try_deduplicated host url options thisArg
                  (List.length (promises w)) (allocate_promise w) Hl)
        as (w' & Hnormal & _).
      rewrite Hnormal in Htry. discriminate. }
    assert (isLoaded (loadedModules w2) (moduleName (schema url')) = false) as Hfresh2
      by (by rewrite Hreg, Hname).
    split; [done|]. rewrite step_tokens. cbn [token_of_event].
    by rewrite (token_of_fresh _ _ Hfresh2).
Qed.

Lemma failure_leaves_registry_witness :
  isLoaded
    (loadedModules
       (run page epoch0 [CallLoad missing OptOmitted VUndefined;
                         ErrorEvent 0 failure_event]))
    "missing" = false ∧
  isLoaded
    (loadedModules (step headless epoch0 (CallLoad missing OptOmitted VUndefined)))
    "missing" = false.
Proof.
  destruct (failure_leaves_registry page) as (_ & _ & Hevent & _).
  destruct (failure_leaves_registry headless) as (_ & _ & _ & Hcaught).
  split.
  - exact (proj1 (Hevent epoch0 "/x/missing.v2.js" OptOmitted VUndefined failure_event
                    "/x/missing.v2.js" OptOmitted VUndefined eq_refl eq_refl)).
  - exact (proj1 (Hcaught epoch0 "/x/missing.v2.js" OptOmitted VUndefined _ _
                    "/x/missing.v2.js" OptOmitted VUndefined eq_refl eq_refl)).
Defined.


(** * Further properties of the loader *)

(** ** More on [schema] *)

Lemma split_pieces_keep d c s :
  includes d s = false → Forall (λ piece, includes d piece = false) (split c s).
Proof.
  induction s as [|a s IH]; cbn; intros Hs.
  - by repeat constructor.
  - apply orb_false_iff in Hs as [Ha Hs]. specialize (IH Hs).
    destruct (Ascii.eqb a c).
    + by constructor.
    + destruct (split c s) as [|piece pieces]; [by repeat constructor; cbn; rewrite Ha|].
      apply Forall_cons in IH as [Hp Hps]. constructor; [|done]. cbn. by rewrite Ha, Hp.
Qed.

Lemma split_pieces_free c s : Forall (λ piece, includes c piece = false) (split c s).
Proof.
  induction s as [|a s IH]; cbn.
  - by repeat constructor.
  - destruct (Ascii.eqb a c) eqn:Ha.
    + by constructor.
    + destruct (split c s) as [|piece pieces]; [by repeat constructor; cbn; rewrite Ha|].
      apply Forall_cons in IH as [Hp Hps]. constructor; [|done]. cbn. by rewrite Ha, Hp.
Qed.

Lemma nth_free c n (pieces : list string) :
  Forall (λ piece, includes c piece = false) pieces →
  includes c (List.nth n pieces "") = false.
Proof.
  intros Hall. revert n. induction Hall as [|x l Hx Hl IH]; intros [|n]; cbn; auto.
Qed.

Lemma pop_free c (pieces : list string) :
  Forall (λ piece, includes c piece = false) pieces →
  includes c (pop pieces) = false.
Proof.
  unfold pop. induction 1 as [|x l Hx Hl IH]; cbn; [done|]. by destruct l.
Qed.

Lemma moduleName_dotted url a rest :
  final_segment url (a ++ "." ++ rest) → includes "." a = false →
  moduleName (schema url) = a.
Proof.
  intros Hseg Ha. unfold schema. rewrite (pop_final_segment _ _ Hseg).
  change ("." ++ rest) with (String "." rest).
  by rewrite includes_separator, (split_first_piece _ _ _ Ha).
Qed.

Lemma moduleName_undotted url seg :
  final_segment url seg → includes "." seg = false →
  moduleName (schema url) = seg.
Proof.
  intros Hseg Hdot. unfold schema. by rewrite (pop_final_segment _ _ Hseg), Hdot.
Qed.

(** X1. The identity of a locator ignores its directories: a locator
    [pre/seg] has the schema of its final segment [seg] alone. *)
Theorem schema_ignores_directory pre seg :
  includes "/" seg = false → schema (pre ++ "/" ++ seg) = schema seg.
Proof.
  intros Hseg. unfold schema.
  rewrite (pop_final_segment (pre ++ "/" ++ seg) seg),
          (pop_final_segment seg seg); [done| |].
  - split; [done|by left].
  - split; [done|]. right. by exists pre.
Qed.

Lemma schema_ignores_directory_witness :
  schema "https://cdn.example/v3/lib/bustMe.min.js" = schema "bustMe.min.js".
Proof.
  exact (schema_ignores_directory "https://cdn.example/v3/lib" "bustMe.min.js" eq_refl).
Defined.

(** X2. Whatever the locator, neither the module name nor the version
    contains a ['/'] or a ['.']. *)
Theorem schema_parts_have_no_separator url :
  includes "/" (moduleName (schema url)) = false ∧
  includes "." (moduleName (schema url)) = false ∧
  includes "/" (version (schema url)) = false ∧
  includes "." (version (schema url)) = false.
Proof.
  unfold schema.
  assert (includes "/" (pop (split "/" url)) = false) as Hslash
    by apply pop_free, split_pieces_free.
  destruct (includes "." (pop (split "/" url))) eqn:Hdot; cbn [moduleName version].
  - pose proof (split_pieces_keep "/" "." _ Hslash) as Hkeep.
    pose proof (split_pieces_free "." (pop (split "/" url))) as Hfree.
    repeat split; by apply nth_free.
  - by repeat split.
Qed.

(** X3. The module name is empty exactly when the final segment is
    empty (the locator is empty or ends with ['/']) or begins with a
    dot. *)
Theorem schema_empty_name url seg :
  final_segment url seg →
  (moduleName (schema url) = "" ↔ seg = "" ∨ ∃ rest, seg = "." ++ rest).
Proof.
  intros Hseg. unfold schema. rewrite (pop_final_segment _ _ Hseg). split.
  - destruct (includes "." seg) eqn:Hdot; cbn [moduleName]; [|by left].
    destruct seg as [|a seg']; [by left|]. cbn.
    destruct (Ascii.eqb a ".") eqn:Ha.
    + apply Ascii.eqb_eq in Ha as ->. intros _. right. by exists seg'.
    + pose proof (split_nonempty "." seg') as Hne.
      by destruct (split "." seg').
  - intros [->|[rest ->]]; [done|].
    change ("." ++ rest) with (String "." rest). cbn.
    by destruct (split "." rest).
Qed.

Lemma schema_empty_name_witness :
  moduleName (schema "/modules/") = "" ∧ moduleName (schema "/etc/.htaccess") = "".
Proof.
  assert (final_segment "/modules/" "") as H1.
  { split; [reflexivity|]. right. by exists "/modules". }
  assert (final_segment "/etc/.htaccess" ".htaccess") as H2.
  { split; [reflexivity|]. right. by exists "/etc". }
  split.
  - apply (proj2 (schema_empty_name _ _ H1)). by left.
  - apply (proj2 (schema_empty_name _ _ H2)). right. by exists "htaccess".
Defined.

(** ** Invariants of a run *)

Lemma isLoaded_false_fresh reg name :
  (∀ b, reg !! name = Some b → b = true) →
  isLoaded reg name = false →
  reg !! name = None ∧ name ∉ Object_prototype_keys.
Proof.
  unfold isLoaded. intros Htrue Hfalse.
  destruct (reg !! name) as [b|] eqn:Hreg.
  - specialize (Htrue b eq_refl). congruence.
  - split; [done|]. by apply bool_decide_eq_false in Hfalse.
Qed.

Lemma proto_key_not_inherited name :
  name ∉ Object_prototype_keys → String.eqb name "__proto__" = false.
Proof.
  intros Hnot. apply String.eqb_neq. intros ->. apply Hnot.
  unfold Object_prototype_keys. set_solver.
Qed.

Lemma fired_head_grows (h : list Script) i el j elj :
  h !! i = Some el → fired el = false →
  h !! j = Some elj → fired elj = true →
  <[i := mark_fired el]> h !! j = Some elj.
Proof.
  intros Hel Hf Helj Hfj. rewrite list_lookup_insert_ne; [done|].
  intros ->. congruence.
Qed.

Section Invariants.
Variable host : Host.

Lemma registry_sound_fired w w' i el :
  registry_sound w → head w !! i = Some el → fired el = false →
  head w' = <[i := mark_fired el]> (head w) →
  loadedModules w' = loadedModules w ∨
  loadedModules w' = markLoaded (el_moduleName el) (loadedModules w) →
  registry_sound w'.
Proof.
  intros [Hreg Hnames] Hel Hf Hh Hr.
  assert (i < List.length (head w)) as Hi by (by eapply lookup_lt_Some).
  split.
  - intros k b Hk. destruct Hr as [Hr|Hr]; rewrite Hr in Hk.
    + destruct (Hreg k b Hk) as (-> & Hkey & j & elj & Helj & Hn & Hfj).
      split; [done|]. split; [done|]. exists j, elj. rewrite Hh.
      split; [by eapply fired_head_grows|done].
    + unfold markLoaded in Hk.
      rewrite (proto_key_not_inherited _ (Hnames i el Hel)) in Hk.
      destruct (decide (el_moduleName el = k)) as [<-|Hne].
      * rewrite lookup_insert_eq in Hk. injection Hk as <-.
        split; [done|]. split; [by eapply Hnames|].
        exists i, (mark_fired el). rewrite Hh.
        split; [by apply list_lookup_insert_eq|done].
      * rewrite lookup_insert_ne in Hk by done.
        destruct (Hreg k b Hk) as (-> & Hkey & j & elj & Helj & Hn & Hfj).
        split; [done|]. split; [done|]. exists j, elj. rewrite Hh.
        split; [by eapply fired_head_grows|done].
  - intros j elj. rewrite Hh.
    intros [(_ & <- & _)|[_ Helj]]%list_lookup_insert_Some; cbn; by eapply Hnames.
Qed.

Lemma registry_sound_step w ev : registry_sound w → registry_sound (step host w ev).
Proof.
  intros Hsound. destruct ev as [m o t|m o t| |v|i|i e|dt].
  - destruct Hsound as [Hreg Hnames]. cbn [step].
    destruct (load_effect host m o t w)
      as (w' & st & -> & _ & Hr & _ & _ & Hhead). cbn [fst].
    destruct Hhead as [[Hh _]|(_ & url & origin & href & a & _ & Hfresh & _ & _ & _ & Hh)];
      unfold registry_sound; rewrite Hr, Hh; [done|].
    apply isLoaded_false_fresh in Hfresh as [_ Hkey];
      [|intros b Hb; by destruct (Hreg _ _ Hb)].
    split.
    + intros k b Hk. destruct (Hreg k b Hk) as (-> & Hk' & j & elj & Helj & Hn & Hfj).
      split; [done|]. split; [done|]. exists j, elj.
      split; [by apply lookup_app_l_Some|done].
    + intros j elj [[_ Helj]|[_ <-]]%lookup_snoc_Some; [by eapply Hnames|done].
  - destruct Hsound as [Hreg Hnames]. cbn [step]. unfold bust.
    destruct (load_effect host m o t w)
      as (w' & st & -> & _ & Hr & _ & _ & Hhead). cbn [fst].
    destruct Hhead as [[Hh _]|(_ & url & origin & href & a & _ & Hfresh & _ & _ & _ & Hh)];
      unfold registry_sound; rewrite Hr, Hh; [done|].
    apply isLoaded_false_fresh in Hfresh as [_ Hkey];
      [|intros b Hb; by destruct (Hreg _ _ Hb)].
    split.
    + intros k b Hk. destruct (Hreg k b Hk) as (-> & Hk' & j & elj & Helj & Hn & Hfj).
      split; [done|]. split; [done|]. exists j, elj.
      split; [by apply lookup_app_l_Some|done].
    + intros j elj [[_ Helj]|[_ <-]]%lookup_snoc_Some; [by eapply Hnames|done].
  - cbn. by destruct (noConflict_world host w) as [-> | ->].
  - done.
  - destruct (pending_or_not i w) as [Hskip|(el & Hel & Hf)].
    + by rewrite (proj1 (step_event_skipped host w i Hskip)).
    + destruct (step_LoadEvent host w i el Hel Hf) as (Hr & Hh & _).
      eapply registry_sound_fired; eauto.
  - destruct (pending_or_not i w) as [Hskip|(el & Hel & Hf)].
    + by rewrite (proj2 (step_event_skipped host w i Hskip)).
    + destruct (step_ErrorEvent host w i e el Hel Hf) as (_ & Hr & Hh & _).
      eapply registry_sound_fired; eauto.
  - done.
Qed.

Lemma registry_sound_run slot t0 evs :
  registry_sound (run host (initial slot t0) evs).
Proof.
  induction evs as [|ev evs IH] using rev_ind.
  - split; [|by intros i el]. intros k b Hk.
    change (loadedModules (run host (initial slot t0) [])) with (∅ : gmap string bool) in Hk.
    by rewrite lookup_empty in Hk.
  - rewrite run_snoc. by apply registry_sound_step.
Qed.

End Invariants.

(** X4. In every world reached from an initial one, the registry holds
    only the marker [true], only under names that are not inherited
    from [Object.prototype], and only names of appended elements whose
    event was delivered. *)
Theorem registry_holds_fired_names host slot t0 evs k b :
  loadedModules (run host (initial slot t0) evs) !! k = Some b →
  b = true ∧ (k ∉ Object_prototype_keys) ∧
  ∃ i el, head (run host (initial slot t0) evs) !! i = Some el ∧
    el_moduleName el = k ∧ fired el = true.
Proof.
  intros Hk. by destruct (registry_sound_run host slot t0 evs) as [Hreg _];
    apply Hreg.
Qed.

Lemma registry_holds_fired_names_witness :
  ∃ i el, head after_first_load !! i = Some el ∧
    el_moduleName el = "bustMe" ∧ fired el = true.
Proof.
  assert (loadedModules after_first_load !! "bustMe" = Some true) as Hrec
    by (vm_compute; reflexivity).
  exact (proj2 (proj2 (registry_holds_fired_names page VUndefined 1700000000000
           [CallLoad bustMe OptOmitted VUndefined; LoadEvent 0] "bustMe" true Hrec))).
Defined.


(** ** Deduplication, beyond recorded names *)

Lemma reachable_isLoaded_proto host slot t0 evs name :
  name ∈ Object_prototype_keys →
  isLoaded (loadedModules (run host (initial slot t0) evs)) name = true.
Proof.
  intros Hkey. unfold isLoaded.
  destruct (loadedModules _ !! name) as [b|] eqn:Hreg.
  - destruct (registry_sound_run host slot t0 evs) as [Hsound _].
    by destruct (Hsound _ _ Hreg) as (-> & _).
  - by apply bool_decide_eq_true.
Qed.

(** X5. A locator whose module name is a property every object
    inherits (constructor, toString, valueOf, hasOwnProperty, __proto__,
    ...) is treated as already loaded in every reachable world, the
    initial one included: the call warns and fulfils its promise and
    the script is never injected. *)
Theorem inherited_names_never_load host slot t0 evs url options thisArg :
  moduleName (schema url) ∈ Object_prototype_keys →
  ∃ w', load host (VStr url) options thisArg (run host (initial slot t0) evs)
        = (w', Normal (List.length (promises (run host (initial slot t0) evs)))) ∧
    head w' = head (run host (initial slot t0) evs) ∧
    promises w' = (promises (run host (initial slot t0) evs) ++ [Fulfilled])%list ∧
    trace w' = (trace (run host (initial slot t0) evs) ++
      [ConsoleWarn ("Module " ++ moduleName (schema url) ++ " is already loaded.");
       Resolve (List.length (promises (run host (initial slot t0) evs)))
         (binding thisArg)])%list.
Proof.
  intros Hkey.
  destruct (load_deduplicated host url options thisArg _
              (reachable_isLoaded_proto host slot t0 evs _ Hkey))
    as (w' & Hl & Ht & Hp & Hh & _).
  by exists w'.
Qed.

Lemma inherited_names_never_load_witness :
  ∃ w', load page (VStr "/lib/constructor.js") OptOmitted VUndefined epoch0
        = (w', Normal 0) ∧
    head w' = [] ∧ promises w' = [Fulfilled].
Proof.
  assert (moduleName (schema "/lib/constructor.js") ∈ Object_prototype_keys) as Hkey
    by (vm_compute; set_solver).
  destruct (inherited_names_never_load page VUndefined 1700000000000 []
              "/lib/constructor.js" OptOmitted VUndefined Hkey)
    as (w' & Hl & Hh & Hp & _).
  exists w'. split; [exact Hl|]. split; [exact Hh|exact Hp].
Defined.

(** X6. Deduplication is keyed by the module name alone: once a name
    [n] is recorded, every locator whose final segment is [n] or
    [n.anything], in whatever directory and with whatever extension,
    is deduplicated; nothing is injected for it. *)
Theorem same_name_other_locator_deduplicated host w n url seg options thisArg :
  loadedModules w !! n = Some true →
  includes "." n = false →
  final_segment url seg →
  (seg = n ∨ ∃ rest, seg = n ++ "." ++ rest) →
  ∃ w', load host (VStr url) options thisArg w
        = (w', Normal (List.length (promises w))) ∧
    head w' = head w ∧
    promises w' = (promises w ++ [Fulfilled])%list ∧
    tokens (trace w') = tokens (trace w).
Proof.
  intros Hrec Hn Hseg Hshape.
  assert (moduleName (schema url) = n) as Hname.
  { destruct Hshape as [->|[rest ->]].
    - by apply moduleName_undotted.
    - by eapply moduleName_dotted. }
  assert (isLoaded (loadedModules w) (moduleName (schema url)) = true) as Hloaded
    by (rewrite Hname; by apply recorded_isLoaded).
  destruct (load_deduplicated host url options thisArg w Hloaded)
    as (w' & Hl & Ht & Hp & Hh & _).
  exists w'. repeat (split; [done|]).
  rewrite Ht. unfold tokens. rewrite omap_app. cbn. by rewrite app_nil_r.
Qed.

Lemma same_name_other_locator_deduplicated_witness :
  ∃ w', load page (VStr "/other/dir/bustMe.v9.css") OptOmitted VUndefined
          after_first_load = (w', Normal 1) ∧
    head w' = head after_first_load.
Proof.
  assert (loadedModules after_first_load !! "bustMe" = Some true) as Hrec
    by (vm_compute; reflexivity).
  assert (final_segment "/other/dir/bustMe.v9.css" "bustMe.v9.css") as Hseg.
  { split; [reflexivity|]. right. by exists "/other/dir". }
  destruct (same_name_other_locator_deduplicated page after_first_load "bustMe"
              "/other/dir/bustMe.v9.css" "bustMe.v9.css" OptOmitted VUndefined
              Hrec eq_refl Hseg (or_intror (ex_intro _ "v9.css" eq_refl)))
    as (w' & Hl & Hh & _).
  exists w'. split; [exact Hl|exact Hh].
Defined.

(** ** Success, and calls in sequence *)

Lemma step_call host w module options thisArg :
  step host w (CallLoad module options thisArg)
  = fst (load host module options thisArg w).
Proof. done. Qed.

Lemma run_cons host w ev evs : run host w (ev :: evs) = run host (step host w ev) evs.
Proof. done. Qed.

(** X7. In every world reached from an initial one, the load event of
    a waiting element fulfils the promise of its call, pending until
    then, and records the element's module name, so that the name
    counts as loaded from then on; nothing else is logged. *)
Theorem onload_fulfils_and_records host slot t0 evs i el :
  head (run host (initial slot t0) evs) !! i = Some el →
  fired el = false →
  promises (run host (initial slot t0) evs) !! el_promise el = Some Pending ∧
  promises (step host (run host (initial slot t0) evs) (LoadEvent i))
    !! el_promise el = Some Fulfilled ∧
  loadedModules (step host (run host (initial slot t0) evs) (LoadEvent i))
  = <[el_moduleName el := true]> (loadedModules (run host (initial slot t0) evs)) ∧
  isLoaded (loadedModules (step host (run host (initial slot t0) evs) (LoadEvent i)))
    (el_moduleName el) = true ∧
  trace (step host (run host (initial slot t0) evs) (LoadEvent i))
  = (trace (run host (initial slot t0) evs) ++
     [Resolve (el_promise el) (binding (el_thisArg el))])%list.
Proof.
  set (w := run host (initial slot t0) evs). intros Hel Hf.
  pose proof (well_formed_run host _ evs (well_formed_initial slot t0))
    as (_ & _ & Hpend).
  destruct (registry_sound_run host slot t0 evs) as [_ Hnames].
  fold w in Hpend, Hnames. specialize (Hpend i el Hel Hf).
  destruct (step_LoadEvent host w i el Hel Hf) as (Hr & _ & Hp & Ht & _).
  assert (loadedModules (step host w (LoadEvent i))
          = <[el_moduleName el := true]> (loadedModules w)) as Hr'.
  { rewrite Hr. unfold markLoaded.
    by rewrite (proto_key_not_inherited _ (Hnames i el Hel)). }
  split; [done|]. split; [rewrite Hp; by apply settle_pending|].
  split; [done|]. split; [|done].
  rewrite Hr'. unfold isLoaded. by rewrite lookup_insert_eq.
Qed.

Lemma onload_fulfils_and_records_witness :
  promises (step page pending_load (LoadEvent 0)) !! 0 = Some Fulfilled ∧
  isLoaded (loadedModules (step page pending_load (LoadEvent 0))) "missing" = true.
Proof.
  destruct (onload_fulfils_and_records page VUndefined 1700000000000
              [CallLoad missing (OptObject VUndefined (Some logging_hook)) (VObj 5)]
              0
              (new_script VUndefined
                 "https://example.test/x/missing.v2.js?cacheBuster=1700000000000"
                 "missing" (OptObject VUndefined (Some logging_hook)) (VObj 5) 0)
              eq_refl eq_refl)
    as (_ & Hfulfilled & _ & Hloaded & _).
  split; [exact Hfulfilled|exact Hloaded].
Defined.

(** X8. Two calls for the same name in one turn sequence, neither
    waiting for the other: when the name is not loaded and the host
    cooperates, both are injected.  The document gets two elements with
    the same module name and the same [src], and two pending promises. *)
Theorem calls_in_flight_both_inject host w url o1 t1 o2 t2 origin href a1 a2 :
  isLoaded (loadedModules w) (moduleName (schema url)) = false →
  cooperates host url w origin href →
  options_async o1 = inr a1 →
  options_async o2 = inr a2 →
  head (run host w [CallLoad (VStr url) o1 t1; CallLoad (VStr url) o2 t2])
  = (head w ++
     [new_script a1 href (moduleName (schema url)) o1 t1 (List.length (promises w));
      new_script a2 href (moduleName (schema url)) o2 t2
        (S (List.length (promises w)))])%list ∧
  promises (run host w [CallLoad (VStr url) o1 t1; CallLoad (VStr url) o2 t2])
  = (promises w ++ [Pending; Pending])%list.
Proof.
  intros Hfresh (Ho & Hu & Hc & Happ) Ha1 Ha2.
  rewrite run_cons, step_call.
  destruct (load_injects host url o1 t1 w origin href a1 Hfresh Ho Hu Hc Ha1 Happ)
    as (w1 & -> & _ & Hh1 & Hp1 & Hr1 & _ & Hc1).
  cbn [fst]. rewrite run_cons, step_call.
  rewrite <- Hr1 in Hfresh. rewrite <- Hc1 in Hu.
  destruct (load_injects host url o2 t2 w1 origin href a2 Hfresh Ho Hu Hc Ha2 Happ)
    as (w2 & -> & _ & Hh2 & Hp2 & _).
  cbn. rewrite Hh2, Hp2, Hh1, Hp1, length_app, <- !app_assoc. cbn.
  by rewrite Nat.add_1_r.
Qed.

Lemma calls_in_flight_both_inject_witness :
  List.length (head two_calls_same_ms) = 2 ∧
  promises two_calls_same_ms = [Pending; Pending].
Proof.
  destruct (calls_in_flight_both_inject page epoch0 "/modules/bustMe.js"
              OptOmitted VUndefined OptOmitted VUndefined
              "https://example.test"
              "https://example.test/modules/bustMe.js?cacheBuster=1700000000000"
              VUndefined VUndefined eq_refl
              (conj eq_refl (conj eq_refl (conj eq_refl eq_refl))) eq_refl eq_refl)
    as [Hhead Hpromises].
  split; [|exact Hpromises].
  unfold two_calls_same_ms, bustMe. rewrite Hhead. reflexivity.
Defined.

(** X9. Two calls in sequence, the second after the first succeeded:
    from a reachable world where the name is not loaded and the host
    cooperates, the first call injects one element, its load event
    fulfils the first promise, and a later call for any locator with
    the same module name injects nothing and is fulfilled at once.
    Exactly one element was appended. *)
Theorem sequential_loads_inject_once host slot t0 evs url options thisArg a
    origin href url' options' thisArg' :
  isLoaded (loadedModules (run host (initial slot t0) evs))
    (moduleName (schema url)) = false →
  cooperates host url (run host (initial slot t0) evs) origin href →
  options_async options = inr a →
  moduleName (schema url') = moduleName (schema url) →
  head (run host (run host (initial slot t0) evs)
          [CallLoad (VStr url) options thisArg;
           LoadEvent (List.length (head (run host (initial slot t0) evs)));
           CallLoad (VStr url') options' thisArg'])
  = (head (run host (initial slot t0) evs) ++
     [mark_fired (new_script a href (moduleName (schema url)) options thisArg
        (List.length (promises (run host (initial slot t0) evs))))])%list ∧
  promises (run host (run host (initial slot t0) evs)
          [CallLoad (VStr url) options thisArg;
           LoadEvent (List.length (head (run host (initial slot t0) evs)));
           CallLoad (VStr url') options' thisArg'])
  = (promises (run host (initial slot t0) evs) ++ [Fulfilled; Fulfilled])%list.
Proof.
  set (w := run host (initial slot t0) evs).
  intros Hfresh (Ho & Hu & Hc & Happ) Ha Hname.
  destruct (registry_sound_run host slot t0 evs) as [Hreg _]. fold w in Hreg.
  destruct (isLoaded_false_fresh _ _
              (λ b Hb, proj1 (Hreg _ b Hb)) Hfresh) as [_ Hkey].
  rewrite run_cons, step_call.
  destruct (load_injects host url options thisArg w origin href a
              Hfresh Ho Hu Hc Ha Happ)
    as (w1 & -> & _ & Hh1 & Hp1 & Hr1 & _).
  cbn [fst]. rewrite run_cons.
  set (el := new_script a href (moduleName (schema url)) options thisArg
               (List.length (promises w))) in *.
  assert (head w1 !! List.length (head w) = Some el) as Hel
    by (rewrite Hh1; by apply list_lookup_middle).
  destruct (step_LoadEvent host w1 _ el Hel eq_refl) as (Hr2 & Hh2 & Hp2 & _).
  set (w2 := step host w1 (LoadEvent (List.length (head w)))) in *.
  rewrite run_cons, step_call.
  assert (isLoaded (loadedModules w2) (moduleName (schema url')) = true) as Hloaded.
  { rewrite Hr2, Hname. unfold markLoaded. cbn [el_moduleName el new_script].
    rewrite (proto_key_not_inherited _ Hkey). unfold isLoaded.
    by rewrite lookup_insert_eq. }
  destruct (load_deduplicated host url' options' thisArg' w2 Hloaded)
    as (w3 & -> & _ & Hp3 & Hh3 & _).
  cbn. rewrite Hh3, Hp3, Hh2, Hp2, Hh1, Hp1. split.
  - replace (List.length (head w)) with (List.length (head w) + 0) by lia.
    by rewrite insert_app_r.
  - cbn [el_promise el new_script]. by rewrite settle_fresh, <- app_assoc.
Qed.

Lemma sequential_loads_inject_once_witness :
  List.length (head (run page epoch0
    [CallLoad bustMe OptOmitted VUndefined; LoadEvent 0;
     CallLoad (VStr "/cdn/bustMe.js") OptOmitted VUndefined])) = 1.
Proof.
  destruct (sequential_loads_inject_once page VUndefined 1700000000000 []
              "/modules/bustMe.js" OptOmitted VUndefined VUndefined
              "https://example.test"
              "https://example.test/modules/bustMe.js?cacheBuster=1700000000000"
              "/cdn/bustMe.js" OptOmitted VUndefined
              eq_refl (conj eq_refl (conj eq_refl (conj eq_refl eq_refl)))
              eq_refl eq_refl)
    as [Hhead _].
  exact (f_equal List.length Hhead).
Defined.

(** ** What a run never undoes *)

Lemma mark_fired_src i el (h : list Script) :
  h !! i = Some el → src <$> <[i := mark_fired el]> h = src <$> h.
Proof.
  intros Hel. rewrite list_fmap_insert. apply list_insert_id.
  by rewrite list_lookup_fmap, Hel.
Qed.

Section Persistence.
Variable host : Host.

(** How one turn changes the promises: it appends one (a call), or
    settles one in place, or leaves them. *)
Lemma step_promises w ev :
  (∃ st, is_call ev = true ∧ promises (step host w ev) = (promises w ++ [st])%list) ∨
  (is_call ev = false ∧
   (promises (step host w ev) = promises w ∨
    ∃ q s, promises (step host w ev) = settle q s (promises w))).
Proof.
  destruct ev as [m o t|m o t| |v|i|i e|dt]; cbn [is_call].
  - left. cbn [step]. destruct (load_effect host m o t w) as (w' & st & -> & Hp & _).
    by exists st.
  - left. cbn [step]. unfold bust.
    destruct (load_effect host m o t w) as (w' & st & -> & Hp & _). by exists st.
  - right. split; [done|]. left. cbn.
    by destruct (noConflict_world host w) as [-> | ->].
  - right. split; [done|]. by left.
  - right. split; [done|].
    destruct (pending_or_not i w) as [Hskip|(el & Hel & Hf)].
    + left. by rewrite (proj1 (step_event_skipped host w i Hskip)).
    + right. destruct (step_LoadEvent host w i el Hel Hf) as (_ & _ & Hp & _).
      by eexists _, _.
  - right. split; [done|].
    destruct (pending_or_not i w) as [Hskip|(el & Hel & Hf)].
    + left. by rewrite (proj2 (step_event_skipped host w i Hskip)).
    + destruct (step_ErrorEvent host w i e el Hel Hf) as (_ & _ & _ & [Hp|Hp] & _).
      * by left.
      * right. by eexists _, _.
  - right. split; [done|]. by left.
Qed.

Lemma step_head_src w ev :
  ∃ more, src <$> head (step host w ev) = ((src <$> head w) ++ more)%list.
Proof.
  assert (∀ m o t, ∃ more,
            src <$> head (fst (load host m o t w)) = ((src <$> head w) ++ more)%list)
    as Hcall.
  { intros m o t.
    destruct (load_effect host m o t w) as (w' & st & -> & _ & _ & _ & _ & Hhead).
    cbn [fst].
    destruct Hhead as [[-> _]|(_ & url & origin & href & a & _ & _ & _ & _ & _ & ->)].
    - exists []. by rewrite app_nil_r.
    - eexists. by rewrite fmap_app. }
  destruct ev as [m o t|m o t| |v|i|i e|dt]; cbn [step]; try apply Hcall.
  - exists []. rewrite app_nil_r. by destruct (noConflict_world host w) as [-> | ->].
  - exists []. by rewrite app_nil_r.
  - exists []. rewrite app_nil_r.
    destruct (pending_or_not i w) as [Hskip|(el & Hel & Hf)].
    + by rewrite deliver_skipped.
    + destruct (step_LoadEvent host w i el Hel Hf) as (_ & Hh & _).
      cbn in Hh. by rewrite Hh, mark_fired_src.
  - exists []. rewrite app_nil_r.
    destruct (pending_or_not i w) as [Hskip|(el & Hel & Hf)].
    + by rewrite deliver_skipped.
    + destruct (step_ErrorEvent host w i e el Hel Hf) as (_ & _ & Hh & _).
      cbn in Hh. by rewrite Hh, mark_fired_src.
  - exists []. by rewrite app_nil_r.
Qed.

End Persistence.

(** X11. The loader never removes a script element: over every run,
    the [src] values of the elements in [document.head] before the run
    are a prefix of those after it. *)
Theorem head_is_append_only host w evs :
  ∃ more,
    src <$> head (run host w evs) = ((src <$> head w) ++ more)%list.
Proof.
  induction evs as [|ev evs [more IH]] using rev_ind.
  - exists []. by rewrite app_nil_r.
  - rewrite run_snoc. destruct (step_head_src host (run host w evs) ev) as [more' ->].
    exists (more ++ more')%list. by rewrite IH, app_assoc.
Qed.

(** X12. Every call of [load] or [bust] creates exactly one promise,
    deduplicated and failing calls included, and nothing else creates
    one: after a run the number of promises has grown by the number of
    calls in it. *)
Theorem one_promise_per_call host w evs :
  List.length (promises (run host w evs))
  = List.length (promises w) + calls evs.
Proof.
  induction evs as [|ev evs IH] using rev_ind.
  - cbn. lia.
  - rewrite run_snoc. unfold calls in *. rewrite List.filter_app, length_app.
    destruct (step_promises host (run host w evs) ev)
      as [(s & Hc & ->)|(Hc & [->|(q & s & ->)])]; cbn [List.filter]; rewrite Hc;
      rewrite ?length_app, ?settle_length; cbn; lia.
Qed.

(** ** The element as configured *)

Lemma configured_new_script a href name options thisArg p :
  options_async options = inr a →
  configured (new_script a href name options thisArg p).
Proof. intros Ha. split; [done|]. split; [done|]. by exists a. Qed.

Lemma configured_fired i el (h : list Script) :
  h !! i = Some el → Forall configured h →
  Forall configured (<[i := mark_fired el]> h).
Proof.
  intros Hel Hall. apply Forall_insert; [done|].
  rewrite Forall_lookup in Hall. exact (Hall i el Hel).
Qed.

Lemma configured_step host w ev :
  Forall configured (head w) → Forall configured (head (step host w ev)).
Proof.
  intros Hall.
  assert (∀ m o t, Forall configured (head (fst (load host m o t w)))) as Hcall.
  { intros m o t.
    destruct (load_effect host m o t w) as (w' & st & -> & _ & _ & _ & _ & Hhead).
    cbn [fst].
    destruct Hhead as [[-> _]|(_ & url & origin & href & a & _ & _ & _ & _ & Ha & ->)];
      [done|].
    apply Forall_app. split; [done|]. constructor; [|constructor].
    by apply configured_new_script. }
  destruct ev as [m o t|m o t| |v|i|i e|dt]; cbn [step]; try apply Hcall; try done.
  - by destruct (noConflict_world host w) as [-> | ->].
  - destruct (pending_or_not i w) as [Hskip|(el & Hel & Hf)].
    + by rewrite deliver_skipped.
    + destruct (step_LoadEvent host w i el Hel Hf) as (_ & Hh & _).
      cbn in Hh. rewrite Hh. by apply configured_fired.
  - destruct (pending_or_not i w) as [Hskip|(el & Hel & Hf)].
    + by rewrite deliver_skipped.
    + destruct (step_ErrorEvent host w i e el Hel Hf) as (_ & _ & Hh & _).
      cbn in Hh. rewrite Hh. by apply configured_fired.
Qed.

Lemma configured_run host slot t0 evs :
  Forall configured (head (run host (initial slot t0) evs)).
Proof.
  induction evs as [|ev evs IH] using rev_ind; [constructor|].
  rewrite run_snoc. by apply configured_step.
Qed.

(** X13. Every script element found in the document after a run from
    an initial world is deferred, has the type
    [application/javascript], and has [async] assigned [true] unless
    the [async] option of its call was exactly [false] (any other
    value, [0] or [null] included, still gives an asynchronous
    element). *)
Theorem appended_elements_are_configured host slot t0 evs i el :
  head (run host (initial slot t0) evs) !! i = Some el →
  defer el = true ∧ type el = "application/javascript" ∧
  ∃ a, options_async (el_options el) = inr a ∧
    (async el = None ↔ a = VBool false) ∧
    (async el = Some true ↔ a ≠ VBool false).
Proof.
  intros Hel. pose proof (configured_run host slot t0 evs) as Hall.
  rewrite Forall_lookup in Hall. destruct (Hall i el Hel) as (Hd & Ht & a & Ha & Hasync).
  split; [done|]. split; [done|]. exists a. split; [done|].
  rewrite Hasync. unfold strict_eq.
  destruct (bool_decide_reflect (a = VBool false)) as [Heq|Hne]; split; split;
    try done; intros ?; congruence.
Qed.

Lemma appended_elements_are_configured_witness :
  ∃ el, head (run page epoch0
           [CallLoad bustMe (OptObject (VNum 0) None) VUndefined]) !! 0 = Some el ∧
    async el = Some true.
Proof.
  eexists. split; [reflexivity|].
  destruct (appended_elements_are_configured page VUndefined 1700000000000
              [CallLoad bustMe (OptObject (VNum 0) None) VUndefined] 0 _ eq_refl)
    as (_ & _ & a & Ha & _ & Hasync).
  apply Hasync. injection Ha as <-. discriminate.
Defined.

(** ** Arguments that make a call fail *)

(** X14. A locator that is neither a string nor a String object has
    no [split] method: [schema] throws the TypeError of that call
    inside the [try] block.  With no [onError] hook, the call logs the
    error and rejects its promise with it, reads no clock, creates no
    element and leaves the registry alone, on every host. *)
Theorem non_string_locator_is_rejected host module options thisArg w :
  locator_text module = None →
  options_onError options = inr None →
  ∃ w',
    load host module options thisArg w = (w', Normal (List.length (promises w))) ∧
    trace w' = (trace w ++
      [ConsoleError "Error loading busted module:" (split_TypeError module);
       Reject (List.length (promises w)) (binding thisArg)
         (split_TypeError module)])%list ∧
    promises w' = (promises w ++ [Rejected (split_TypeError module)])%list ∧
    head w' = head w ∧ loadedModules w' = loadedModules w.
Proof.
  intros Hmodule Hhook.
  assert (options = OptOmitted ∨ (∃ a, options = OptObject a None)) as Hopt.
  { destruct options as [| |a [h|]]; try discriminate; [by left|right; by exists a]. }
  assert (load_try host module options thisArg (List.length (promises w))
            (allocate_promise w)
          = (allocate_promise w, Throw (split_TypeError module))) as Htry.
  { unfold load_try, schema_of. rewrite Hmodule. by exec. }
  rewrite load_unfold, Htry.
  destruct (fail_with_no_hook options thisArg (List.length (promises w))
              (split_TypeError module) (allocate_promise w) Hopt)
    as (w' & -> & Ht & Hp & Hr & Hh & _).
  exists w'. split; [done|]. split; [done|].
  split; [rewrite Hp; apply settle_fresh|]. done.
Qed.

Lemma non_string_locator_is_rejected_witness :
  ∃ w', load page VNull OptOmitted VUndefined epoch0 = (w', Normal 0) ∧
    promises w'
    = [Rejected (TypeError "Cannot read properties of null (reading 'split')")] ∧
    head w' = [].
Proof.
  destruct (non_string_locator_is_rejected page VNull OptOmitted VUndefined epoch0
              eq_refl eq_refl)
    as (w' & Hl & _ & Hp & Hh & _).
  exists w'. split; [exact Hl|]. split; [exact Hp|exact Hh].
Defined.

(** X15. [options] passed as [null]: a call for a name that is not
    loaded reads the clock and creates the element, then fails on
    reading [options.async]; the [catch] block fails again on reading
    [options.onError], and the promise is rejected with that second
    TypeError.  The created element is never appended. *)
Theorem null_options_reject_after_create host w url thisArg origin href :
  isLoaded (loadedModules w) (moduleName (schema url)) = false →
  cooperates host url w origin href →
  ∃ w', load host (VStr url) OptNull thisArg w
        = (w', Normal (List.length (promises w))) ∧
    trace w' = (trace w ++
      [DateNow (clock w); CreateElement;
       ConsoleError "Error loading busted module:"
         (TypeError "Cannot read properties of null (reading 'async')")])%list ∧
    promises w' = (promises w ++
      [Rejected (TypeError "Cannot read properties of null (reading 'onError')")])%list ∧
    head w' = head w ∧ loadedModules w' = loadedModules w.
Proof.
  intros Hfresh (Ho & Hu & Hc & Happ).
  rewrite load_unfold. unfold load_try. exec.
  rewrite Hfresh, Ho. cbn. rewrite Hu, Hc. cbn.
  eexists. split; [reflexivity|]. cbn.
  split; [by rewrite <- !app_assoc|]. split; [apply settle_fresh|done].
Qed.

Lemma null_options_reject_after_create_witness :
  ∃ w', load page bustMe OptNull VUndefined epoch0 = (w', Normal 0) ∧
    promises w'
    = [Rejected (TypeError "Cannot read properties of null (reading 'onError')")] ∧
    head w' = [].
Proof.
  destruct (null_options_reject_after_create page epoch0 "/modules/bustMe.js"
              VUndefined "https://example.test"
              "https://example.test/modules/bustMe.js?cacheBuster=1700000000000"
              eq_refl (conj eq_refl (conj eq_refl (conj eq_refl eq_refl))))
    as (w' & Hl & _ & Hp & Hh & _).
  exists w'. split; [exact Hl|]. split; [exact Hp|exact Hh].
Defined.

(** ** The global slot and loading *)

(** [load] neither reads nor writes the global slot. *)
Lemma load_ignores_slot host module options thisArg v w :
  load host module options thisArg (set_window_buster v w)
  = (set_window_buster v (fst (load host module options thisArg w)),
     snd (load host module options thisArg w)).
Proof.
  unfold load, new_Promise, try_catch, load_try, schema_of.
  destruct (locator_text module) as [url|]; exec;
    [|destruct options as [| |a [h|]]; cbn;
      try destruct (hook_body h _ _); reflexivity].
  destruct (isLoaded _ _); cbn; [done|].
  destruct (window_location_origin host); cbn;
    [destruct options as [| |a [h|]]; cbn;
     try destruct (hook_body h _ _); reflexivity|].
  destruct (new_URL_href host _ _); cbn;
    [destruct options as [| |a [h|]]; cbn;
     try destruct (hook_body h _ _); reflexivity|].
  destruct (document_createElement host); cbn;
    [destruct options as [| |a [h|]]; cbn;
     try destruct (hook_body h _ _); reflexivity|].
  destruct options as [| |a [h|]]; cbn; try reflexivity;
    destruct (document_head_appendChild host); cbn;
    try destruct (hook_body h _ _); reflexivity.
Qed.

Lemma noConflict_cases host w :
  is_Some (window host) →
  (window_buster w = buster ∧
   noConflict host w = (set_window_buster VUndefined w, Normal buster)) ∨
  (window_buster w ≠ buster ∧ noConflict host w = (w, Normal buster)).
Proof.
  intros [completion Hwindow]. unfold noConflict, strict_eq. rewrite Hwindow. exec.
  destruct (bool_decide_reflect (window_buster w = buster)); [by left|by right].
Qed.

Lemma noConflict_no_window host w :
  window host = None →
  noConflict host w = (w, Throw (ReferenceError "window is not defined")).
Proof. intros Hwindow. unfold noConflict. by rewrite Hwindow. Qed.

(** X16. Detaching the global and loading do not interfere: calling
    [$noConflict] before a [load] leaves the same world as calling it
    after.  Detaching resets neither the registry nor pending loads. *)
Theorem noConflict_commutes_with_load host w module options thisArg :
  run host w [CallNoConflict; CallLoad module options thisArg]
  = run host w [CallLoad module options thisArg; CallNoConflict].
Proof.
  cbn [run fold_left step].
  destruct (load_effect host module options thisArg w)
    as (w1 & st & Hl & _ & _ & Hslot & _).
  destruct (window host) as [completion|] eqn:Hwindow.
  - assert (is_Some (window host)) as Hsome by (by eexists).
    destruct (noConflict_cases host w Hsome) as [[Hown ->]|[Hother ->]]; cbn [fst].
    + rewrite load_ignores_slot, Hl. cbn [fst].
      destruct (noConflict_cases host w1 Hsome) as [[_ ->]|[Hne _]];
        [done|congruence].
    + rewrite Hl. cbn [fst].
      destruct (noConflict_cases host w1 Hsome) as [[Heq _]|[_ ->]];
        [congruence|done].
  - rewrite (noConflict_no_window host w Hwindow). cbn [fst]. rewrite Hl. cbn [fst].
    by rewrite (noConflict_no_window host w1 Hwindow).
Qed.

(** X17. [$noConflict] is idempotent on every host.  Where [window]
    is defined, a second call changes nothing and returns the loader
    again.  Where it is not, every call throws the same
    ReferenceError and leaves the world, the slot included, as it
    was. *)
Theorem noConflict_idempotent host w :
  (is_Some (window host) →
   snd (noConflict host w) = Normal buster ∧
   noConflict host (fst (noConflict host w))
   = (fst (noConflict host w), Normal buster)) ∧
  (window host = None →
   noConflict host w = (w, Throw (ReferenceError "window is not defined"))).
Proof.
  split; [|apply noConflict_no_window]. intros Hsome.
  destruct (noConflict_cases host w Hsome) as [[Hown ->]|[Hother ->]]; cbn [fst snd].
  - split; [done|].
    by destruct (noConflict_cases host (set_window_buster VUndefined w) Hsome)
      as [[Heq _]|[_ ->]].
  - split; [done|].
    by destruct (noConflict_cases host w Hsome) as [[Heq _]|[_ ->]].
Qed.

Lemma noConflict_idempotent_witness :
  noConflict page (fst (noConflict page (initial buster 0)))
  = (initial VUndefined 0, Normal buster) ∧
  noConflict headless (initial buster 0)
  = (initial buster 0, Throw (ReferenceError "window is not defined")).
Proof.
  destruct (noConflict_idempotent page (initial buster 0)) as [Hpage _].
  destruct (noConflict_idempotent headless (initial buster 0)) as [_ Hheadless].
  split.
  - exact (proj2 (Hpage (ex_intro _ _ eq_refl))).
  - exact (Hheadless eq_refl).
Defined.

(** X18. Attaching and detaching is not a round trip.  With no module
    system and a slot that does not hold the loader: where [window] is
    defined, after the wrapper has run and [$noConflict] was called the
    slot holds [undefined] if it held a falsy value before (that value
    is lost, not restored) and its former value if that was truthy;
    where [window] is not defined and the wrapper attached to [this],
    [$noConflict] throws, and a loader attached over a falsy value
    stays in the slot. *)
Theorem wrapper_then_noConflict host module this_is_global w :
  module = ModuleAbsent ∨ module = ModuleObject false →
  window_buster w ≠ buster →
  (is_Some (window host) →
   window_buster
     (fst (noConflict host
        (fst (wrapper module false (global_argument host this_is_global) w))))
   = if truthy (window_buster w) then window_buster w else VUndefined) ∧
  (window host = None → this_is_global = true →
   noConflict host
     (fst (wrapper module false (global_argument host this_is_global) w))
   = (fst (wrapper module false (global_argument host this_is_global) w),
      Throw (ReferenceError "window is not defined")) ∧
   window_buster
     (fst (wrapper module false (global_argument host this_is_global) w))
   = if truthy (window_buster w) then window_buster w else buster).
Proof.
  intros Hmodule Hother.
  assert (wrapper module false GlobalObject w
          = if truthy (window_buster w)
            then (observe (ConsoleWarn "buster is already defined in the global scope") w,
                  Normal NotAttached)
            else (set_window_buster buster w, Normal Attached)) as Hwrapper.
  { destruct Hmodule as [-> | ->]; unfold wrapper; exec;
      destruct (truthy (window_buster w)) eqn:Ht; cbn; by rewrite Ht. }
  split.
  - intros [completion Hwindow]. unfold global_argument. rewrite Hwindow, Hwrapper.
    unfold noConflict, strict_eq. rewrite Hwindow. exec.
    destruct (truthy (window_buster w)); cbn.
    + by rewrite bool_decide_eq_false_2.
    + by rewrite bool_decide_eq_true_2.
  - intros Hwindow ->. unfold global_argument. rewrite Hwindow, Hwrapper.
    split; [by apply noConflict_no_window|].
    by destruct (truthy (window_buster w)).
Qed.

Lemma wrapper_then_noConflict_witness :
  window_buster
    (fst (noConflict page
       (fst (wrapper ModuleAbsent false (global_argument page false)
               (initial (VNum 0) 0)))))
  = VUndefined ∧
  window_buster
    (fst (wrapper ModuleAbsent false (global_argument headless true)
            (initial (VNum 0) 0)))
  = buster.
Proof.
  assert (VNum 0 ≠ buster) as Hother by discriminate.
  destruct (wrapper_then_noConflict page ModuleAbsent false (initial (VNum 0) 0)
              (or_introl eq_refl) Hother) as [Hpage _].
  destruct (wrapper_then_noConflict headless ModuleAbsent true (initial (VNum 0) 0)
              (or_introl eq_refl) Hother) as [_ Hheadless].
  split.
  - exact (Hpage (ex_intro _ _ eq_refl)).
  - exact (proj2 (Hheadless eq_refl eq_refl)).
Defined.


(** ** The demo script *)

Lemma length_append (a b : string) :
  String.length (a ++ b) = String.length a + String.length b.
Proof.
  induction a as [|c a IH]; [done|].
  change (S (String.length (a ++ b)) = S (String.length a + String.length b)).
  by rewrite IH.
Qed.

Lemma append_cancel_r (a b s : string) : a ++ s = b ++ s → a = b.
Proof.
  revert b. induction a as [|c a IH]; intros [|d b] H; cbn in H.
  - done.
  - apply (f_equal String.length) in H.
    change (String.length s = S (String.length (b ++ s))) in H.
    rewrite length_append in H. lia.
  - apply (f_equal String.length) in H.
    change (S (String.length (a ++ s)) = String.length s) in H.
    rewrite length_append in H. lia.
  - injection H as -> H. f_equal. by apply IH.
Qed.

(** X20. [hello] is injective: the name can be read back from the
    greeting, which is the name with seven characters before it and
    one after. *)
Theorem hello_injective (a b : string) :
  (hello a = hello b → a = b) ∧ String.length (hello a) = String.length a + 8.
Proof.
  unfold hello. split.
  - intros H. apply append_cancel in H. by apply append_cancel_r in H.
  - rewrite !length_append.
    change (String.length "Hello, ") with 7. change (String.length "!") with 1. lia.
Qed.

(** ** A host that cannot resolve the URL *)

(** X21. When [window.location.origin] cannot be read (no [window]) or
    [new URL] rejects the busted locator, a call for a name that is
    not loaded has already read the clock, creates no element, and,
    with no [onError] hook, logs the host's error and rejects its
    promise with it. *)
Theorem unresolvable_url_is_rejected host w url options thisArg e :
  isLoaded (loadedModules w) (moduleName (schema url)) = false →
  window_location_origin host = inl e ∨
  (∃ origin, window_location_origin host = inr origin ∧
     new_URL_href host (busted url (clock w)) origin = inl e) →
  options_onError options = inr None →
  ∃ w', load host (VStr url) options thisArg w
        = (w', Normal (List.length (promises w))) ∧
    trace w' = (trace w ++
      [DateNow (clock w);
       ConsoleError "Error loading busted module:" e;
       Reject (List.length (promises w)) (binding thisArg) e])%list ∧
    promises w' = (promises w ++ [Rejected e])%list ∧
    head w' = head w ∧ loadedModules w' = loadedModules w.
Proof.
  intros Hfresh Hhost Hhook.
  assert (options = OptOmitted ∨ (∃ a, options = OptObject a None)) as Hopt.
  { destruct options as [| |a [h|]]; try discriminate; [by left|right; by exists a]. }
  assert (load_try host (VStr url) options thisArg (List.length (promises w))
            (allocate_promise w)
          = (observe (DateNow (clock w)) (allocate_promise w), Throw e)) as Htry.
  { unfold load_try. exec. rewrite Hfresh. cbn.
    destruct Hhost as [->|(origin & -> & Hu)]; cbn; [done|]. by rewrite Hu. }
  rewrite load_unfold, Htry.
  destruct (fail_with_no_hook options thisArg (List.length (promises w)) e
              (observe (DateNow (clock w)) (allocate_promise w)) Hopt)
    as (w' & -> & Ht & Hp & Hr & Hh & _).
  exists w'. split; [done|]. cbn in *. split; [by rewrite Ht, <- app_assoc|].
  split; [rewrite Hp; apply settle_fresh|done].
Qed.

Lemma unresolvable_url_is_rejected_witness :
  ∃ w', load headless bustMe OptOmitted VUndefined epoch0 = (w', Normal 0) ∧
    promises w' = [Rejected (VError "ReferenceError" "window is not defined")] ∧
    head w' = [].
Proof.
  destruct (unresolvable_url_is_rejected headless epoch0 "/modules/bustMe.js"
              OptOmitted VUndefined
              (VError "ReferenceError" "window is not defined")
              eq_refl (or_introl eq_refl) eq_refl)
    as (w' & Hl & _ & Hp & Hh & _).
  exists w'. split; [exact Hl|]. split; [exact Hp|exact Hh].
Defined.
